(** * Playwright-reCAPTCHA: the synchronous reCAPTCHA v2 solver

    A shallow embedding of [playwright_recaptcha/recaptchav2/sync_solver.py]
    and the properties of [SyncSolver] established on it.

    Layout:
    - [Str]: facts on Python [str] values, modelled as [string];
    - [Re]: the fragment of Python's [re] module the solver uses, as a
      backtracking matcher (leftmost match, alternatives in order, lazy
      star, [.] refusing the line break);
    - the solver object and its listener [_extract_token];
    - [Solver]: the methods that talk to the browser, over an arbitrary
      browser given as an oracle, in a state/exception/trace monad;
    - [Demo]: a scripted browser on which runs are evaluated;
    - the theorems. *)

From Stdlib Require Import String Ascii List ZArith Lia Bool Arith.
From Stdlib Require Strings.Byte.
Import ListNotations.
Local Open Scope string_scope.
Local Open Scope list_scope.

(* ------------------------------------------------------------------ *)
(** ** Python [str] *)

Module Str.
Local Open Scope string_scope.

(** The double quote and the line break, by character code. *)
Definition dquote : ascii := "034"%char.
Definition newline : ascii := "010"%char.

(** [chars s]: the characters of [s], in order. *)
Definition chars (s : string) : list ascii := list_ascii_of_string s.

(** [strip p s]: [s] without its prefix [p], when [s] starts with [p]. *)
Fixpoint strip (p s : string) : option string :=
  match p with
  | EmptyString => Some s
  | String a p' =>
      match s with
      | EmptyString => None
      | String b s' => if Ascii.eqb a b then strip p' s' else None
      end
  end.

(** [took s rest]: the part of [s] in front of its suffix [rest]. *)
Definition took (s rest : string) : string :=
  substring 0 (String.length s - String.length rest) s.

(** [occurs p s]: [p] is a substring of [s]. *)
Definition occurs (p s : string) : Prop :=
  exists pre post, s = pre ++ p ++ post.

Lemma app_assoc (a b c : string) : (a ++ b) ++ c = a ++ b ++ c.
Proof. induction a as [|x a IH]; simpl; [reflexivity | now rewrite IH]. Qed.

Lemma app_nil_r (a : string) : a ++ "" = a.
Proof. induction a as [|x a IH]; simpl; [reflexivity | now rewrite IH]. Qed.

Lemma length_app (a b : string) :
  String.length (a ++ b) = String.length a + String.length b.
Proof. induction a as [|x a IH]; simpl; [reflexivity | now rewrite IH]. Qed.

Lemma chars_app (a b : string) : chars (a ++ b) = (chars a ++ chars b)%list.
Proof. induction a as [|x a IH]; simpl; [reflexivity | now rewrite IH]. Qed.

Lemma strip_app (p s : string) : strip p (p ++ s) = Some s.
Proof.
  induction p as [|a p IH]; simpl; [reflexivity|].
  now rewrite Ascii.eqb_refl.
Qed.

Lemma strip_Some (p s rest : string) : strip p s = Some rest -> s = p ++ rest.
Proof.
  revert s; induction p as [|a p IH]; intros s H; simpl in *.
  - now inversion H.
  - destruct s as [|b s]; [discriminate|].
    destruct (Ascii.eqb_spec a b) as [->|]; [|discriminate].
    now rewrite (IH _ H).
Qed.

Lemma strip_None (p s : string) :
  strip p s = None -> forall rest, s <> p ++ rest.
Proof.
  intros H rest ->. rewrite strip_app in H. discriminate.
Qed.

Lemma took_app (a b : string) : took (a ++ b) b = a.
Proof.
  unfold took. rewrite length_app, Nat.add_sub.
  induction a as [|x a IH]; simpl.
  - destruct b; reflexivity.
  - now rewrite IH.
Qed.

Lemma occurs_here (p post : string) : occurs p (p ++ post).
Proof. now exists "", post. Qed.

Lemma occurs_later (c : ascii) (p s : string) :
  occurs p s -> occurs p (String c s).
Proof. intros (pre & post & ->). now exists (String c pre), post. Qed.

Lemma occurs_inv (c : ascii) (p s : string) :
  occurs p (String c s) ->
  (exists post, String c s = p ++ post) \/ occurs p s.
Proof.
  intros (pre & post & E). destruct pre as [|x pre]; simpl in E.
  - left. now exists post.
  - right. inversion E. now exists pre, post.
Qed.

End Str.

(* ------------------------------------------------------------------ *)
(** ** The fragment of Python's [re] used by the solver

    [re.search(pattern, string)] scans [string] from left to right and
    returns the match found at the first position where the pattern
    matches, or [None].  At one position the matcher backtracks:
    alternatives are tried in the order written, a lazy star tries the
    rest of the pattern before it takes one more character, and [.]
    takes any character but the line break (no [DOTALL] flag is passed).
    The patterns of the solver have at most one group. *)

Module Re.
Local Open Scope string_scope.
Import Str.

Inductive regex : Type :=
| Lit (s : string)          (* a run of literal characters *)
| Dot                       (* .       *)
| Seq (r1 r2 : regex)       (* r1 r2   *)
| Alt (r1 r2 : regex)       (* r1|r2   *)
| LazyStar (r : regex)      (* r*?     *)
| Group (r : regex).        (* ( r ), group 1 *)

(** A match object: [group 0] is the matched text, [group 1] the text
    of the group, [None] when the group took no part in the match. *)
Record Match : Type := mkMatch { group0 : string; group1 : option string }.

Definition group (m : Match) (i : nat) : option string :=
  match i with
  | 0 => Some (group0 m)
  | _ => group1 m
  end.

Section Backtracking.
Context {R : Type}.

(** [bt r s g k]: match [r] at the head of [s], the group holding [g],
    then continue with [k] on the rest; [None] makes the caller
    backtrack. *)
Fixpoint bt (r : regex) (s : string) (g : option string)
  (k : string -> option string -> option R) {struct r} : option R :=
  match r with
  | Lit p =>
      match strip p s with
      | Some rest => k rest g
      | None => None
      end
  | Dot =>
      match s with
      | String c rest => if Ascii.eqb c newline then None else k rest g
      | EmptyString => None
      end
  | Seq r1 r2 => bt r1 s g (fun s1 g1 => bt r2 s1 g1 k)
  | Alt r1 r2 =>
      match bt r1 s g k with
      | Some m => Some m
      | None => bt r2 s g k
      end
  | LazyStar r1 =>
      (fix iterate (n : nat) (s : string) (g : option string) : option R :=
         match k s g with
         | Some m => Some m
         | None =>
             match n with
             | O => None
             | S n' =>
                 bt r1 s g (fun s1 g1 =>
                   if Nat.ltb (String.length s1) (String.length s)
                   then iterate n' s1 g1 else None)
             end
         end) (String.length s) s g
  | Group r1 => bt r1 s g (fun s1 _ => k s1 (Some (took s s1)))
  end.

End Backtracking.

(** [re.match]: the pattern at the head of the subject. *)
Definition match_ (r : regex) (s : string) : option Match :=
  bt r s None (fun rest g => Some (mkMatch (took s rest) g)).

(** [re.search]: the first position of the subject where it matches. *)
Fixpoint search (r : regex) (s : string) : option Match :=
  match match_ r s with
  | Some m => Some m
  | None =>
      match s with
      | EmptyString => None
      | String _ s' => search r s'
      end
  end.

End Re.

(* ------------------------------------------------------------------ *)
(** ** The solver object and the response listener *)

(** What the listener reads of a playwright [Response]. *)
Record Response : Type := mkResponse { url : string; text : string }.

Inductive Page : Type := page_ref (id : nat).

(** The attributes set by [SyncSolver.__init__]. *)
Record SyncSolver : Type := mkSolver {
  _page : Page;
  _retries : Z;
  token : option string
}.

(** [self.token = v] *)
Definition set_token (self : SyncSolver) (v : option string) : SyncSolver :=
  {| _page := _page self; _retries := _retries self; token := v |}.

(** [def __init__(self, page, retries=3)] *)
Definition default_retries : Z := 3%Z.

Definition __init__ (page : Page) (retries : Z) : SyncSolver :=
  {| _page := page; _retries := retries; token := None |}.

(** The text between two double quotes is written with [q]. *)
Definition q : string := String Str.dquote EmptyString.

(** ["/recaptcha/(api2|enterprise)/userverify"] *)
Definition userverify_pattern : Re.regex :=
  Re.Seq (Re.Lit "/recaptcha/")
    (Re.Seq (Re.Group (Re.Alt (Re.Lit "api2") (Re.Lit "enterprise")))
            (Re.Lit "/userverify")).

(** The key in front of the token: a double quote, [uvresp], a double
    quote, a comma, a double quote. *)
Definition uvresp_key : string := (q ++ "uvresp" ++ q ++ "," ++ q)%string.

(** [r'"uvresp","(.*?)"'] *)
Definition uvresp_pattern : Re.regex :=
  Re.Seq (Re.Lit uvresp_key)
    (Re.Seq (Re.Group (Re.LazyStar Re.Dot)) (Re.Lit q)).

(** [SyncSolver._extract_token] *)
Definition _extract_token (self : SyncSolver) (response : Response) : SyncSolver :=
  match Re.search userverify_pattern (url response) with
  | None => self
  | Some _ =>
      let token_match := Re.search uvresp_pattern (text response) in
      match token_match with
      | Some m => set_token self (Re.group m 1)
      | None => self
      end
  end.


(* ------------------------------------------------------------------ *)
(** ** What the two patterns match *)

(** A userverify URL: one that has [/recaptcha/api2/userverify] or
    [/recaptcha/enterprise/userverify] somewhere in it. *)
Definition userverify_url (u : string) : Prop :=
  Str.occurs "/recaptcha/api2/userverify" u \/
  Str.occurs "/recaptcha/enterprise/userverify" u.

(** [plain t]: [t] has no double quote and no line break. *)
Definition plain (t : string) : Prop :=
  forall c, In c (Str.chars t) -> c <> Str.dquote /\ c <> Str.newline.

(** [uvresp_at body pre tok post]: [body] is [pre], the key, [tok], a
    double quote and [post], and [tok] is plain: [tok] is the text
    between the key and the next double quote, on one line. *)
Definition uvresp_at (body pre tok post : string) : Prop :=
  body = (pre ++ uvresp_key ++ tok ++ q ++ post)%string /\ plain tok.

Definition has_uvresp (body : string) : Prop :=
  exists pre tok post, uvresp_at body pre tok post.

(** [first_uvresp body tok]: [tok] is the token of the leftmost such
    place of [body]. *)
Definition first_uvresp (body tok : string) : Prop :=
  exists pre post,
    uvresp_at body pre tok post /\
    forall pre' tok' post',
      uvresp_at body pre' tok' post' -> String.length pre <= String.length pre'.

Module ReFacts.
Local Open Scope string_scope.
Import Str Re.

Definition starts (p s : string) : Prop := exists post, s = p ++ post.

Lemma strip_starts (p s : string) :
  match strip p s with
  | Some rest => s = p ++ rest
  | None => ~ starts p s
  end.
Proof.
  destruct (strip p s) eqn:E.
  - now apply strip_Some.
  - intros [post ->]. now apply (strip_None _ _ E post).
Qed.

Lemma match_userverify (s : string) :
  match match_ userverify_pattern s with
  | Some _ =>
      starts "/recaptcha/api2/userverify" s \/
      starts "/recaptcha/enterprise/userverify" s
  | None =>
      ~ starts "/recaptcha/api2/userverify" s /\
      ~ starts "/recaptcha/enterprise/userverify" s
  end.
Proof.
  unfold match_, userverify_pattern. cbn [bt].
  pose proof (strip_starts "/recaptcha/" s) as H1.
  destruct (strip "/recaptcha/" s) as [r1|]; cbv beta iota.
  2:{ split; intros [post ->]; apply H1; eexists; reflexivity. }
  subst s.
  pose proof (strip_starts "api2" r1) as H2.
  pose proof (strip_starts "enterprise" r1) as H3.
  destruct (strip "api2" r1) as [r2|]; cbv beta iota.
  - subst r1. clear H3.
    pose proof (strip_starts "/userverify" r2) as H4.
    destruct (strip "/userverify" r2) as [r3|]; cbv beta iota.
    + subst r2. left. now exists r3.
    + cbn [strip append Ascii.eqb Bool.eqb]. cbv beta iota.
      split; intros [post E]; simpl in E; inversion E; subst.
      apply H4. now exists post.
  - destruct (strip "enterprise" r1) as [r2|]; cbv beta iota.
    + subst r1.
      pose proof (strip_starts "/userverify" r2) as H4.
      destruct (strip "/userverify" r2) as [r3|]; cbv beta iota.
      * subst r2. right. now exists r3.
      * split; intros [post E]; simpl in E; inversion E; subst.
        apply H4. now exists post.
    + split; intros [post E]; simpl in E; inversion E; subst.
      * apply H2. eexists; reflexivity.
      * apply H3. eexists; reflexivity.
Qed.

Lemma occurs_nil (p : string) : p <> "" -> ~ occurs p "".
Proof.
  intros Hp (pre & post & E).
  destruct pre; [|discriminate]. destruct p; [congruence | discriminate].
Qed.

Lemma search_userverify (u : string) :
  match search userverify_pattern u with
  | Some _ => userverify_url u
  | None => ~ userverify_url u
  end.
Proof.
  unfold userverify_url.
  induction u as [|c u IH]; cbn [search].
  - pose proof (match_userverify "") as H.
    destruct (match_ userverify_pattern "").
    + destruct H as [[post E]|[post E]]; discriminate.
    + intros [H1|H1]; revert H1; apply occurs_nil; discriminate.
  - pose proof (match_userverify (String c u)) as H.
    destruct (match_ userverify_pattern (String c u)).
    + destruct H as [[post ->]|[post ->]]; [left|right]; apply occurs_here.
    + destruct H as [H1 H2].
      destruct (search userverify_pattern u).
      * destruct IH; [left|right]; now apply occurs_later.
      * intros [H|H]; apply occurs_inv in H; destruct H as [H|H];
          [now apply H1| apply IH; now left | now apply H2 | apply IH; now right].
Qed.

(** The lazy star over [.], followed by the closing double quote: the
    loop of [bt (LazyStar Dot)] with its first argument set free. *)
Definition lazy_dots {R : Type} (k : string -> option string -> option R) :
  nat -> string -> option string -> option R :=
  fix iterate (n : nat) (s : string) (g : option string) : option R :=
    match k s g with
    | Some m => Some m
    | None =>
        match n with
        | O => None
        | S n' =>
            match s with
            | String c rest =>
                if Ascii.eqb c newline then None
                else if Nat.ltb (String.length rest) (String.length s)
                     then iterate n' rest g else None
            | EmptyString => None
            end
        end
    end.

Lemma bt_lazy_dots {R : Type} (k : string -> option string -> option R)
  (s : string) (g : option string) :
  bt (LazyStar Dot) s g k = lazy_dots k (String.length s) s g.
Proof. reflexivity. Qed.

Lemma plain_nil : plain "".
Proof. intros c []. Qed.

Lemma plain_cons (c : ascii) (t : string) :
  plain (String c t) <-> (c <> dquote /\ c <> newline) /\ plain t.
Proof.
  unfold plain; simpl; split.
  - intros H; split; [apply H; now left | intros d Hd; apply H; now right].
  - intros [Hc Ht] d [<-|Hd]; [exact Hc | now apply Ht].
Qed.

Lemma lazy_dots_eq {R : Type} (k : string -> option string -> option R)
  (n : nat) (s : string) (g : option string) :
  lazy_dots k n s g =
  match k s g with
  | Some m => Some m
  | None =>
      match n, s with
      | S n', String c rest =>
          if Ascii.eqb c newline then None else lazy_dots k n' rest g
      | _, _ => None
      end
  end.
Proof.
  destruct n as [|n]; cbn [lazy_dots]; destruct (k s g); try reflexivity.
  destruct s as [|c rest]; [reflexivity|].
  replace (Nat.ltb (String.length rest) (String.length (String c rest))) with true
    by (symmetry; apply Nat.ltb_lt; simpl; lia).
  reflexivity.
Qed.

Lemma lazy_dots_quote {R : Type} (F : string -> string -> R) (g : option string)
  (n : nat) (s : string) :
  String.length s <= n ->
  match lazy_dots
          (fun s1 _ => match strip q s1 with
                       | Some rest => Some (F s1 rest)
                       | None => None
                       end) n s g with
  | Some m =>
      exists tok rest, s = tok ++ q ++ rest /\ plain tok /\ m = F (q ++ rest) rest
  | None => forall tok rest, plain tok -> s <> tok ++ q ++ rest
  end.
Proof.
  revert s; induction n as [|n IH]; intros s Hn; rewrite lazy_dots_eq.
  - destruct s; [|simpl in Hn; lia]. cbn.
    intros [|c tok] rest _; discriminate.
  - destruct s as [|c s].
    + cbn. intros [|c tok] rest _; discriminate.
    + change (strip q (String c s))
        with (if Ascii.eqb dquote c then Some s else None).
      destruct (Ascii.eqb_spec dquote c) as [<-|Hq].
      * exists "", s.
        split; [reflexivity | split; [apply plain_nil | reflexivity]].
      * destruct (Ascii.eqb_spec c newline) as [->|Hnl].
        { intros [|c tok] rest Hp E; simpl in E; inversion E; subst.
          apply plain_cons in Hp. now destruct Hp as [[_ Hp] _]. }
        simpl in Hn. specialize (IH s ltac:(lia)).
        match goal with
        | |- match ?X with _ => _ end => destruct X as [m|]
        end.
        { destruct IH as (tok & rest & -> & Hp & ->).
          exists (String c tok), rest.
          split; [reflexivity | split; [|reflexivity]].
          apply plain_cons. split; [split; congruence | assumption]. }
        { intros [|c' tok] rest Hp E; simpl in E; inversion E; subst;
            [congruence|].
          apply plain_cons in Hp. now apply (IH tok rest). }
Qed.

Lemma match_uvresp_eq (s : string) :
  match_ uvresp_pattern s =
  match strip uvresp_key s with
  | Some r1 =>
      lazy_dots
        (fun s1 _ =>
           match strip q s1 with
           | Some rest => Some (mkMatch (took s rest) (Some (took r1 s1)))
           | None => None
           end) (String.length r1) r1 None
  | None => None
  end.
Proof. reflexivity. Qed.

Lemma match_uvresp (s : string) :
  match match_ uvresp_pattern s with
  | Some m =>
      exists tok rest,
        s = uvresp_key ++ tok ++ q ++ rest /\ plain tok /\
        m = mkMatch (uvresp_key ++ tok ++ q) (Some tok)
  | None => forall tok rest, plain tok -> s <> uvresp_key ++ tok ++ q ++ rest
  end.
Proof.
  rewrite match_uvresp_eq.
  pose proof (strip_starts uvresp_key s) as H1.
  destruct (strip uvresp_key s) as [r1|]; cbv beta iota.
  2:{ intros tok rest _ ->. apply H1. eexists; reflexivity. }
  subst s.
  pose proof (lazy_dots_quote
    (fun s1 rest => mkMatch (took (uvresp_key ++ r1) rest) (Some (took r1 s1)))
    None (String.length r1) r1 (Nat.le_refl _)) as H2.
  cbv beta in H2.
  match type of H2 with
  | match ?X with _ => _ end => destruct X as [m|]
  end.
  - destruct H2 as (tok & rest & -> & Hp & ->).
    exists tok, rest. split; [reflexivity | split; [assumption|]].
    rewrite took_app.
    replace (uvresp_key ++ tok ++ q ++ rest)
      with ((uvresp_key ++ tok ++ q) ++ rest)
      by now rewrite !Str.app_assoc.
    now rewrite took_app.
  - intros tok rest Hp E.
    apply (H2 tok rest Hp).
    change uvresp_key with (String dquote (String "u" (String "v" (String "r" (String "e" (String "s" (String "p" (String dquote (String "," (String dquote "")))))))))) in E.
    simpl in E. now inversion E.
Qed.

Lemma uvresp_at_head (s tok post : string) :
  uvresp_at s "" tok post <-> s = uvresp_key ++ tok ++ q ++ post /\ plain tok.
Proof. reflexivity. Qed.

Lemma uvresp_at_cons (c : ascii) (s pre tok post : string) :
  uvresp_at (String c s) (String c pre) tok post <-> uvresp_at s pre tok post.
Proof.
  unfold uvresp_at; simpl; split; intros [E Hp]; split; try assumption.
  - now inversion E.
  - now rewrite E.
Qed.

Lemma uvresp_at_inv (c : ascii) (s pre tok post : string) :
  uvresp_at (String c s) pre tok post ->
  (String c s = uvresp_key ++ tok ++ q ++ post /\ pre = "") \/
  exists pre', pre = String c pre' /\ uvresp_at s pre' tok post.
Proof.
  destruct pre as [|d pre]; intros [E Hp]; [now left|]. right.
  simpl in E. inversion E; subst. exists pre. split; [reflexivity|].
  now split.
Qed.

Lemma search_uvresp (body : string) :
  match search uvresp_pattern body with
  | Some m => exists tok, m = mkMatch (uvresp_key ++ tok ++ q) (Some tok) /\
                          first_uvresp body tok
  | None => ~ has_uvresp body
  end.
Proof.
  induction body as [|c body IH]; cbn [search].
  - pose proof (match_uvresp "") as H.
    destruct (match_ uvresp_pattern "") as [m|].
    + destruct H as (tok & rest & E & _). discriminate.
    + intros (pre & tok & post & E & Hp).
      destruct pre; [|discriminate]. now apply (H tok post).
  - pose proof (match_uvresp (String c body)) as H.
    destruct (match_ uvresp_pattern (String c body)) as [m|].
    + destruct H as (tok & rest & E & Hp & ->).
      exists tok. split; [reflexivity|].
      exists "", rest. split; [now split|]. intros; simpl; lia.
    + destruct (search uvresp_pattern body) as [m|].
      * destruct IH as (tok & -> & pre & post & Hat & Hmin).
        exists tok. split; [reflexivity|].
        exists (String c pre), post. split; [now apply uvresp_at_cons|].
        intros pre' tok' post' H'. pose proof H' as [_ Hp'].
        apply uvresp_at_inv in H'. destruct H' as [[E _]|(p & -> & H')].
        -- exfalso. now apply (H tok' post').
        -- simpl. apply le_n_S. now apply (Hmin p tok' post').
      * intros (pre & tok & post & H'). pose proof H' as [_ Hp'].
        apply uvresp_at_inv in H'. destruct H' as [[E _]|(p & -> & H')].
        -- now apply (H tok post).
        -- apply IH. now exists p, tok, post.
Qed.

(** The leftmost place fixes the token. *)
Lemma app_inj_length (a a' b b' : string) :
  a ++ b = a' ++ b' -> String.length a = String.length a' -> a = a' /\ b = b'.
Proof.
  revert a'; induction a as [|x a IH]; intros [|y a'] E L;
    simpl in *; try discriminate.
  - now split.
  - inversion E; subst. destruct (IH a' H1) as [-> ->]; [lia | now split].
Qed.

Lemma plain_until_quote (t t' r r' : string) :
  plain t -> plain t' -> t ++ q ++ r = t' ++ q ++ r' -> t = t'.
Proof.
  revert t'; induction t as [|x t IH]; intros [|y t'] Hp Hp' E;
    simpl in E; inversion E; subst.
  - reflexivity.
  - apply plain_cons in Hp'. now destruct Hp' as [[Hq _] _].
  - apply plain_cons in Hp. now destruct Hp as [[Hq _] _].
  - apply plain_cons in Hp, Hp'. f_equal. now apply (IH t').
Qed.

Lemma first_uvresp_unique (body tok tok' : string) :
  first_uvresp body tok -> first_uvresp body tok' -> tok = tok'.
Proof.
  intros (pre & post & [E Hp] & Hmin) (pre' & post' & [E' Hp'] & Hmin').
  assert (L : String.length pre = String.length pre').
  { apply Nat.le_antisymm.
    - apply (Hmin pre' tok' post'). now split.
    - apply (Hmin' pre tok post). now split. }
  rewrite E in E'. apply app_inj_length in E'; [|exact L].
  destruct E' as [_ E'].
  apply app_inj_length in E'; [|reflexivity]. destruct E' as [_ E'].
  now apply (plain_until_quote _ _ _ _ Hp Hp' E').
Qed.

Lemma plain_occurs (body tok : string) :
  first_uvresp body tok -> Str.occurs tok body.
Proof.
  intros (pre & post & [-> _] & _).
  exists (pre ++ uvresp_key), (q ++ post). now rewrite !Str.app_assoc.
Qed.

End ReFacts.

(* ------------------------------------------------------------------ *)
(** ** The browser and the services, as seen by the solver *)

Inductive Frame : Type := frame_ref (id : nat).

(** The checkbox locator handed out by [get_recaptcha_checkbox]. *)
Inductive Checkbox : Type := checkbox_ref (id : nat).

(** Locators: those the solver builds on the reCAPTCHA frame, and the
    checkbox. *)
Inductive Locator : Type :=
| get_by_role (frame : Frame) (role name : string)
| get_by_text (frame : Frame) (text : string)
| checkbox (c : Checkbox).

(** Python values returned by the speech service. *)
#[local] Set Warnings "-register-all".
Inductive pyobj : Type :=
| PyStr (s : string)
| PyList (items : list pyobj)
| PyDict (items : list (string * pyobj)).

Definition bytes : Type := list Byte.byte.

(** The calls the solver makes, indexed by the type of what they
    return.  [get_recaptcha_frame] and [get_recaptcha_checkbox] are the
    two functions of [recaptchav2/utils.py]; to the solver they are
    calls that return a frame and a checkbox, or raise.
    [Locator.get_attribute] returns [Optional[str]]: [None] when the
    element has no such attribute; [_get_audio_url] returns what it gets
    and [solve_recaptcha] hands it on to [httpx.get]. *)
Inductive call : Type -> Type :=
| wait_for_load_state (page : Page) (state : string) : call unit
| wait_for_timeout (page : Page) (ms : Z) : call unit
| frames (page : Page) : call (list Frame)
| get_recaptcha_frame (fs : list Frame) : call Frame
| get_recaptcha_checkbox (fs : list Frame) : call Checkbox
| click (l : Locator) : call unit
| fill (l : Locator) (value : pyobj) : call unit
| is_visible (l : Locator) : call bool
| is_checked (c : Checkbox) : call bool
| get_attribute (l : Locator) (name : string) : call (option string)
| randint (a b : Z) : call Z
| httpx_get (url : option string) : call bytes
| from_mp3 (mp3_audio : bytes) : call bytes
| export (audio : bytes) (format : string) : call bytes
| record (wav_audio : bytes) : call bytes
| recognize_google (audio_data : bytes) (show_all : bool) : call pyobj.

(** Playwright runs the page's event handlers while one of its own calls
    is in progress; the other libraries do not. *)
Definition playwright {A : Type} (c : call A) : bool :=
  match c with
  | randint _ _ | httpx_get _ | from_mp3 _ | export _ _ | record _
  | recognize_google _ _ => false
  | _ => true
  end.

(** What a call does: it returns a value, or raises an exception of the
    library (named by its class). *)
Inductive outcome (A : Type) : Type :=
| Returned (a : A)
| Raised (name : string).
Arguments Returned {A} a.
Arguments Raised {A} name.

(** One call as it took place: the call, what it did, and the responses
    handed to the solver's listener while it was in progress. *)
Inductive event : Type :=
| Ev {A : Type} (c : call A) (o : outcome A) (delivered : list Response).

(** Exceptions: the two of [playwright_recaptcha.errors] raised by the
    solver, the built-in ones, and those of the libraries. *)
Inductive exn : Type :=
| RecaptchaRateLimitError
| RecaptchaSolveError
| KeyError
| IndexError
| TypeError
| External (name : string).

Inductive result (A : Type) : Type :=
| Return (a : A)
| Raise (e : exn)
| Diverge.          (* a loop that was cut off *)
Arguments Return {A} a.
Arguments Raise {A} e.
Arguments Diverge {A}.

(** Listeners of a page, per event name.  Playwright's event emitter
    keeps them in a dictionary keyed by the callable. *)
Inductive handler : Type :=
| self_extract_token           (* the bound method self._extract_token *)
| foreign (id : nat).          (* a callable of other code *)

Definition handler_eqb (a b : handler) : bool :=
  match a, b with
  | self_extract_token, self_extract_token => true
  | foreign i, foreign j => Nat.eqb i j
  | _, _ => false
  end.

Definition listener_eqb (a b : string * handler) : bool :=
  String.eqb (fst a) (fst b) && handler_eqb (snd a) (snd b).

Definition registered (l : string * handler) (ls : list (string * handler)) : bool :=
  existsb (listener_eqb l) ls.

(** [obj[key]] and [obj[i]] *)
Definition getitem_key (obj : pyobj) (key : string) : exn + pyobj :=
  match obj with
  | PyDict items =>
      match find (fun kv => String.eqb (fst kv) key) items with
      | Some kv => inr (snd kv)
      | None => inl KeyError
      end
  | _ => inl TypeError
  end.

Definition getitem_index (obj : pyobj) (i : nat) : exn + pyobj :=
  match obj with
  | PyList items =>
      match nth_error items i with
      | Some x => inr x
      | None => inl IndexError
      end
  | PyStr s =>
      match String.get i s with
      | Some c => inr (PyStr (String c EmptyString))
      | None => inl IndexError
      end
  | PyDict _ => inl KeyError
  end.

(** [retries or default] on [Optional[int]] *)
Definition py_or (retries : option Z) (default : Z) : Z :=
  match retries with
  | None => default
  | Some n => if Z.eqb n 0 then default else n
  end.

(* ------------------------------------------------------------------ *)
(** ** The methods of [SyncSolver]

    The browser and the services are an arbitrary oracle [perform] over
    a state [W]: a call gets its outcome, the responses the page
    receives while it is in progress, and the next state.  A method is a
    function of the runtime state that yields the calls it made (in
    order), its result, and the state it leaves. *)

Section Solver.

Variable W : Type.
Variable perform : forall A : Type, call A -> W -> outcome A * list Response * W.

Record runtime : Type := mkRuntime {
  self : SyncSolver;                       (* the solver object *)
  listeners : list (string * handler);     (* the page's listeners *)
  browser : W
}.

Definition M (A : Type) : Type := runtime -> list event * result A * runtime.

Definition ret {A : Type} (a : A) : M A := fun st => ([], Return a, st).

Definition raise {A : Type} (e : exn) : M A := fun st => ([], Raise e, st).

Definition diverge {A : Type} : M A := fun st => ([], Diverge, st).

Definition bind {A B : Type} (m : M A) (f : A -> M B) : M B :=
  fun st =>
    match m st with
    | (evs1, Return a, st1) =>
        match f a st1 with
        | (evs2, r, st2) => (evs1 ++ evs2, r, st2)
        end
    | (evs1, Raise e, st1) => (evs1, Raise e, st1)
    | (evs1, Diverge, st1) => (evs1, Diverge, st1)
    end.

Notation "x <- m ;; k" := (bind m (fun x => k))
  (at level 61, m at next level, right associativity).
Notation "m ;; k" := (bind m (fun _ => k))
  (at level 61, right associativity).

(** [try: m  except e: h] *)
Definition try_except {A : Type} (m : M A) (e : exn -> bool) (h : M A) : M A :=
  fun st =>
    match m st with
    | (evs1, Raise x, st1) =>
        if e x then
          match h st1 with
          | (evs2, r, st2) => (evs1 ++ evs2, r, st2)
          end
        else (evs1, Raise x, st1)
    | other => other
    end.

(** [self.<attribute>] *)
Definition attr {A : Type} (field : SyncSolver -> A) : M A :=
  fun st => ([], Return (field (self st)), st).

(** A value of type [exn + A] as a computation. *)
Definition lift {A : Type} (v : exn + A) : M A :=
  match v with
  | inl e => raise e
  | inr a => ret a
  end.

(** The emitter hands the responses to [self._extract_token] when it is
    among the page's ["response"] listeners and the call is playwright's. *)
Definition handed {A : Type} (c : call A) (st : runtime) (rs : list Response) :
  list Response :=
  if playwright c && registered ("response", self_extract_token) (listeners st)
  then rs else [].

(** One call to the browser or to a service. *)
Definition do {A : Type} (c : call A) : M A :=
  fun st =>
    match perform A c (browser st) with
    | (o, rs, w) =>
        let delivered := handed c st rs in
        ([Ev c o delivered],
         match o with
         | Returned a => Return a
         | Raised name => Raise (External name)
         end,
         {| self := fold_left _extract_token delivered (self st);
            listeners := listeners st;
            browser := w |})
    end.

(** [page.on(event, f)]: [listeners[event][f] = f] *)
Definition on (event : string) (f : handler) : M unit :=
  fun st =>
    ([], Return tt,
     {| self := self st;
        listeners :=
          if registered (event, f) (listeners st) then listeners st
          else listeners st ++ [(event, f)];
        browser := browser st |}).

(** [page.remove_listener(event, f)]: [listeners[event].pop(f)], a
    [KeyError] when [f] is not there. *)
Definition remove_listener (event : string) (f : handler) : M unit :=
  fun st =>
    if registered (event, f) (listeners st) then
      ([], Return tt,
       {| self := self st;
          listeners :=
            filter (fun l => negb (listener_eqb (event, f) l)) (listeners st);
          browser := browser st |})
    else ([], Raise KeyError, st).

(** [SyncSolver._random_delay] *)
Definition _random_delay : M unit :=
  page <- attr _page ;;
  n <- do (randint 1 4) ;;
  do (wait_for_timeout page (n * 1000)).

(** The [while True] loop of [_get_audio_url], at most [fuel] rounds. *)
Fixpoint _get_audio_url_wait (fuel : nat) (recaptcha_frame : Frame) : M unit :=
  match fuel with
  | O => diverge
  | S fuel' =>
      play <- do (is_visible (get_by_text recaptcha_frame "Press PLAY to listen")) ;;
      if play then ret tt
      else
        later <- do (is_visible (get_by_text recaptcha_frame "Try again later")) ;;
        if later then raise RecaptchaRateLimitError
        else
          page <- attr _page ;;
          do (wait_for_timeout page 100) ;;
          _get_audio_url_wait fuel' recaptcha_frame
  end.

(** [SyncSolver._get_audio_url] *)
Definition _get_audio_url (fuel : nat) (recaptcha_frame : Frame) :
  M (option string) :=
  let audio_challenge_button :=
    get_by_role recaptcha_frame "button" "Get an audio challenge" in
  visible <- do (is_visible audio_challenge_button) ;;
  (if visible then do (click audio_challenge_button) else ret tt) ;;
  _get_audio_url_wait fuel recaptcha_frame ;;
  do (get_attribute
        (get_by_role recaptcha_frame "link" "Alternatively, download audio as MP3")
        "href").

(** [SyncSolver._convert_audio_to_text] *)
Definition _convert_audio_to_text (audio_url : option string) : M pyobj :=
  content <- do (httpx_get audio_url) ;;
  audio <- do (from_mp3 content) ;;
  wav_audio <- do (export audio "wav") ;;
  audio_data <- do (record wav_audio) ;;
  text <- do (recognize_google audio_data true) ;;
  alternative <- lift (getitem_key text "alternative") ;;
  first <- lift (getitem_index alternative 0) ;;
  lift (getitem_key first "transcript").

(** The [while True] loop of [_submit_audio_text], at most [fuel] rounds. *)
Fixpoint _submit_audio_text_wait (fuel : nat) (recaptcha_frame : Frame)
  (recaptcha_checkbox : Checkbox) : M unit :=
  match fuel with
  | O => diverge
  | S fuel' =>
      more <- do (is_visible (get_by_text recaptcha_frame
                "Multiple correct solutions required - please solve more.")) ;;
      done <- (if more then ret true else do (is_checked recaptcha_checkbox)) ;;
      if done then ret tt
      else
        later <- do (is_visible (get_by_text recaptcha_frame "Try again later")) ;;
        if later then raise RecaptchaRateLimitError
        else
          page <- attr _page ;;
          do (wait_for_timeout page 100) ;;
          _submit_audio_text_wait fuel' recaptcha_frame recaptcha_checkbox
  end.

(** [SyncSolver._submit_audio_text] *)
Definition _submit_audio_text (fuel : nat) (recaptcha_frame : Frame)
  (recaptcha_checkbox : Checkbox) (text : pyobj) : M unit :=
  do (fill (get_by_role recaptcha_frame "textbox" "Enter what you hear") text) ;;
  do (click (get_by_role recaptcha_frame "button" "Verify")) ;;
  _submit_audio_text_wait fuel recaptcha_frame recaptcha_checkbox.

Definition is_KeyError (e : exn) : bool :=
  match e with
  | KeyError => true
  | _ => false
  end.

(** [SyncSolver.close] *)
Definition close : M unit :=
  try_except
    (remove_listener "response" self_extract_token)
    is_KeyError
    (ret tt).

(** [SyncSolver.__enter__] and [SyncSolver.__exit__] *)
Definition __enter__ : M SyncSolver := attr (fun s => s).

Definition __exit__ : M unit := close.

(** The [while retries > 0] loop of [solve_recaptcha].  [gas] bounds the
    rounds; [solve_recaptcha] gives it as many as [retries] asks for. *)
Fixpoint solve_recaptcha_loop (gas fuel : nat) (recaptcha_frame : Frame)
  (recaptcha_checkbox : Checkbox) (retries : Z) : M unit :=
  if Z.gtb retries 0 then
    match gas with
    | O => diverge
    | S gas' =>
        _random_delay ;;
        url <- _get_audio_url fuel recaptcha_frame ;;
        text <- _convert_audio_to_text url ;;
        _random_delay ;;
        _submit_audio_text fuel recaptcha_frame recaptcha_checkbox text ;;
        checked <- do (is_checked recaptcha_checkbox) ;;
        if checked then ret tt
        else
          do (click (get_by_role recaptcha_frame "button" "Get a new challenge")) ;;
          solve_recaptcha_loop gas' fuel recaptcha_frame recaptcha_checkbox
            (retries - 1)
    end
  else ret tt.

(** [SyncSolver.solve_recaptcha] *)
Definition solve_recaptcha (fuel : nat) (retries : option Z) : M (option string) :=
  on "response" self_extract_token ;;
  default <- attr _retries ;;
  let retries := py_or retries default in
  page <- attr _page ;;
  do (wait_for_load_state page "networkidle") ;;
  fs <- do (frames page) ;;
  recaptcha_frame <- do (get_recaptcha_frame fs) ;;
  fs <- do (frames page) ;;
  recaptcha_checkbox <- do (get_recaptcha_checkbox fs) ;;
  do (click (checkbox recaptcha_checkbox)) ;;
  checked <- do (is_checked recaptcha_checkbox) ;;
  if checked then attr token
  else
    solve_recaptcha_loop (Z.to_nat retries) fuel recaptcha_frame
      recaptcha_checkbox retries ;;
    checked <- do (is_checked recaptcha_checkbox) ;;
    if negb checked then raise RecaptchaSolveError
    else attr token.

End Solver.

Arguments mkRuntime {W} self listeners browser.
Arguments self {W} r.
Arguments listeners {W} r.
Arguments browser {W} r.
Arguments ret {W A} a st.
Arguments raise {W A} e st.
Arguments diverge {W A} st.
Arguments bind {W A B} m f st.
Arguments try_except {W A} m e h st.
Arguments attr {W A} field st.
Arguments lift {W A} v st.
Arguments handed {W A} c st rs.
Arguments do {W} perform {A} c st.
Arguments on {W} event f st.
Arguments remove_listener {W} event f st.
Arguments close {W} st.
Arguments __enter__ {W} st.
Arguments __exit__ {W} st.

(* ------------------------------------------------------------------ *)
(** ** Reading a run: the calls of interest *)

(** The exception a result carries. *)
Definition raised {A : Type} (r : result A) : option exn :=
  match r with
  | Raise e => Some e
  | _ => None
  end.

(** [is_visible] and [is_checked] as they took place, and clicks. *)
Definition asked_visible (e : event) : option (Locator * outcome bool) :=
  match e with
  | Ev c o _ =>
      match c in call A return outcome A -> option (Locator * outcome bool) with
      | is_visible l => fun o => Some (l, o)
      | _ => fun _ => None
      end o
  end.

Definition asked_checked (e : event) : option (outcome bool) :=
  match e with
  | Ev c o _ =>
      match c in call A return outcome A -> option (outcome bool) with
      | is_checked _ => fun o => Some o
      | _ => fun _ => None
      end o
  end.

Definition clicked (e : event) : option Locator :=
  match e with
  | Ev c _ _ =>
      match c with
      | click l => Some l
      | _ => None
      end
  end.

(** The start of an audio-challenge attempt: [_get_audio_url] asks for
    the audio-challenge button. *)
Definition attempt_start (e : event) : bool :=
  match asked_visible e with
  | Some (get_by_role _ role name, _) =>
      String.eqb role "button" && String.eqb name "Get an audio challenge"
  | _ => false
  end.

(** A click on the button "Get a new challenge". *)
Definition new_challenge (e : event) : bool :=
  match clicked e with
  | Some (get_by_role _ role name) =>
      String.eqb role "button" && String.eqb name "Get a new challenge"
  | _ => false
  end.

(** The checkbox was asked and found unchecked, or checked. *)
Definition unchecked (e : event) : bool :=
  match asked_checked e with
  | Some (Returned false) => true
  | _ => false
  end.

Definition checked (e : event) : bool :=
  match asked_checked e with
  | Some (Returned true) => true
  | _ => false
  end.

(** "Try again later" was asked for and found visible. *)
Definition rate_limited (e : event) : bool :=
  match asked_visible e with
  | Some (get_by_text _ t, Returned true) => String.eqb t "Try again later"
  | _ => false
  end.

(** "Multiple correct solutions required" was found visible. *)
Definition more_required (e : event) : bool :=
  match asked_visible e with
  | Some (get_by_text _ t, Returned true) =>
      String.eqb t "Multiple correct solutions required - please solve more."
  | _ => false
  end.

(** The responses handed to the listener during a run, in order. *)
Definition delivered (e : event) : list Response :=
  match e with
  | Ev _ _ d => d
  end.

Definition dispatched (evs : list event) : list Response :=
  flat_map delivered evs.

(** The outcome of the first [is_checked] of a run. *)
Fixpoint first_check (evs : list event) : option (outcome bool) :=
  match evs with
  | [] => None
  | e :: rest =>
      match asked_checked e with
      | Some o => Some o
      | None => first_check rest
      end
  end.

Definition count (p : event -> bool) (evs : list event) : nat :=
  length (filter p evs).

(** [ends_with p evs]: the last call of [evs] satisfies [p]. *)
Fixpoint final (evs : list event) : option event :=
  match evs with
  | [] => None
  | [e] => Some e
  | _ :: rest => final rest
  end.

Definition ends_with (p : event -> bool) (evs : list event) : bool :=
  match final evs with
  | Some e => p e
  | None => false
  end.

(** [only_last p evs]: a call that satisfies [p] is the last of [evs]. *)
Definition only_last (p : event -> bool) (evs : list event) : Prop :=
  forall pre e post, evs = pre ++ e :: post -> p e = true -> post = [].


(** A monitor that reads a run call by call. *)
Record monitor : Type := mkMonitor {
  starts : nat;             (* attempts started *)
  renewals : nat;           (* clicks on "Get a new challenge" *)
  last_unchecked : bool;    (* the last call found the checkbox unchecked *)
  last_limited : bool;      (* the last call found "Try again later" *)
  stray_limit : bool;       (* a call came after "Try again later" was found *)
  stray_renewal : bool      (* a renewal not right after an unchecked checkbox *)
}.

Definition idle : monitor := mkMonitor 0 0 false false false false.

Definition watch (m : monitor) (e : event) : monitor :=
  {| starts := starts m + (if attempt_start e then 1 else 0);
     renewals := renewals m + (if new_challenge e then 1 else 0);
     last_unchecked := unchecked e;
     last_limited := rate_limited e;
     stray_limit := stray_limit m || last_limited m;
     stray_renewal :=
       stray_renewal m || (new_challenge e && negb (last_unchecked m)) |}.

Definition observe (m : monitor) (evs : list event) : monitor :=
  fold_left watch evs m.

Arguments _random_delay {W} perform st.
Arguments _get_audio_url_wait {W} perform fuel recaptcha_frame st.
Arguments _get_audio_url {W} perform fuel recaptcha_frame st.
Arguments _convert_audio_to_text {W} perform audio_url st.
Arguments _submit_audio_text_wait {W} perform fuel recaptcha_frame recaptcha_checkbox st.
Arguments _submit_audio_text {W} perform fuel recaptcha_frame recaptcha_checkbox text st.
Arguments solve_recaptcha_loop {W} perform gas fuel recaptcha_frame recaptcha_checkbox retries st.
Arguments solve_recaptcha {W} perform fuel retries st.

(* ------------------------------------------------------------------ *)
(** ** A scripted browser

    The answers to [is_visible] and [is_checked] are read off a list
    ([False] once it is used up); the responses in [inbox] reach the page
    during the next click; the speech service answers [speech]. *)

Module Demo.

Record script : Type := mkScript {
  answers : list bool;
  inbox : list Response;
  speech : pyobj
}.

Definition answer (w : script) : outcome bool * list Response * script :=
  match answers w with
  | [] => (Returned false, [], w)
  | b :: rest => (Returned b, [], mkScript rest (inbox w) (speech w))
  end.

Definition audio_href : string :=
  "https://www.google.com/recaptcha/api2/payload/audio.mp3".

Definition perform (A : Type) (c : call A) (w : script) :
  outcome A * list Response * script :=
  match c in call A return outcome A * list Response * script with
  | is_visible _ => answer w
  | is_checked _ => answer w
  | click _ => (Returned tt, inbox w, mkScript (answers w) [] (speech w))
  | fill _ _ => (Returned tt, [], w)
  | wait_for_load_state _ _ => (Returned tt, [], w)
  | wait_for_timeout _ _ => (Returned tt, [], w)
  | frames _ => (Returned [frame_ref 0; frame_ref 1], [], w)
  | get_recaptcha_frame _ => (Returned (frame_ref 1), [], w)
  | get_recaptcha_checkbox _ => (Returned (checkbox_ref 0), [], w)
  | get_attribute _ _ => (Returned (Some audio_href), [], w)
  | randint a _ => (Returned a, [], w)
  | httpx_get _ => (Returned [], [], w)
  | from_mp3 x => (Returned x, [], w)
  | export x _ => (Returned x, [], w)
  | record x => (Returned x, [], w)
  | recognize_google _ _ => (Returned (speech w), [], w)
  end.

(** The answer of the speech service to a clip that says "seven two". *)
Definition heard : pyobj :=
  PyDict [("alternative",
           PyList [PyDict [("transcript", PyStr "seven two");
                           ("confidence", PyStr "0.93")];
                   PyDict [("transcript", PyStr "seven to")]]);
          ("final", PyStr "True")].

(** A userverify response that carries the token [03AFcWeA]. *)
Definition userverify : Response :=
  {| url := "https://www.google.com/recaptcha/api2/userverify?k=6LeIxAcT";
     text := (")]}'" ++ String Str.newline "" ++ "[" ++ uvresp_key
              ++ "03AFcWeA" ++ q ++ ",null,120]")%string |}.

(** A fresh solver on page 0, and the state in which it starts. *)
Definition solver : SyncSolver := __init__ (page_ref 0) default_retries.

Definition start (answers : list bool) (inbox : list Response) : runtime script :=
  mkRuntime solver [] (mkScript answers inbox heard).

End Demo.

(* ------------------------------------------------------------------ *)
(** ** Facts on runs and on the monitor *)

Lemma final_cons (e : event) (evs : list event) :
  final (e :: evs) = match final evs with Some x => Some x | None => Some e end.
Proof.
  revert e; induction evs as [|x evs IH]; intros e; [reflexivity|].
  change (final (e :: x :: evs)) with (final (x :: evs)).
  rewrite IH. destruct (final evs); reflexivity.
Qed.

Lemma final_app (l1 l2 : list event) :
  final (l1 ++ l2) = match final l2 with Some x => Some x | None => final l1 end.
Proof.
  induction l1 as [|e l1 IH].
  - simpl. destruct (final l2); reflexivity.
  - rewrite <- app_comm_cons, !final_cons, IH.
    destruct (final l2); reflexivity.
Qed.

Lemma final_None (evs : list event) : final evs = None -> evs = [].
Proof.
  destruct evs as [|e evs]; [reflexivity|]. rewrite final_cons.
  destruct (final evs); discriminate.
Qed.

Lemma count_app (p : event -> bool) (l1 l2 : list event) :
  count p (l1 ++ l2) = count p l1 + count p l2.
Proof. unfold count. now rewrite filter_app, length_app. Qed.

Lemma observe_app (m : monitor) (l1 l2 : list event) :
  observe m (l1 ++ l2) = observe (observe m l1) l2.
Proof. apply fold_left_app. Qed.



Lemma last_unchecked_observe (evs : list event) (m : monitor) :
  last_unchecked (observe m evs) =
  match final evs with Some e => unchecked e | None => last_unchecked m end.
Proof.
  revert m; induction evs as [|e evs IH]; intros m; [reflexivity|].
  change (observe m (e :: evs)) with (observe (watch m e) evs).
  rewrite IH, final_cons. destruct (final evs); reflexivity.
Qed.

Lemma last_limited_observe (evs : list event) (m : monitor) :
  last_limited (observe m evs) =
  match final evs with Some e => rate_limited e | None => last_limited m end.
Proof.
  revert m; induction evs as [|e evs IH]; intros m; [reflexivity|].
  change (observe m (e :: evs)) with (observe (watch m e) evs).
  rewrite IH, final_cons. destruct (final evs); reflexivity.
Qed.

Lemma stray_limit_mono (evs : list event) (m : monitor) :
  stray_limit (observe m evs) = false -> stray_limit m = false.
Proof.
  revert m; induction evs as [|e evs IH]; intros m H; [exact H|].
  apply IH in H. simpl in H. now apply orb_false_iff in H.
Qed.


(** What the two flags of the monitor say of the run. *)
Lemma stray_limit_only_last (evs : list event) (m : monitor) :
  stray_limit (observe m evs) = false -> only_last rate_limited evs.
Proof.
  revert m; induction evs as [|x evs IH]; intros m H pre e post E He.
  - destruct pre; discriminate.
  - destruct pre as [|y pre]; simpl in E; inversion E; subst.
    + destruct post as [|z post]; [reflexivity|]. exfalso.
      change (observe m (e :: z :: post))
        with (observe (watch (watch m e) z) post) in H.
      apply stray_limit_mono in H. simpl in H.
      rewrite He in H. now rewrite orb_true_r in H.
    + now apply (IH (watch m y) H pre e post).
Qed.


Lemma dispatched_app (l1 l2 : list event) :
  dispatched (l1 ++ l2) = dispatched l1 ++ dispatched l2.
Proof. apply flat_map_app. Qed.

Lemma getitem_key_raises (obj : pyobj) (key : string) (e : exn) :
  getitem_key obj key = inl e -> e = KeyError \/ e = TypeError.
Proof.
  destruct obj; simpl; try (intros H; inversion H; now right).
  destruct (find _ items); intros H; inversion H. now left.
Qed.

Lemma getitem_index_raises (obj : pyobj) (i : nat) (e : exn) :
  getitem_index obj i = inl e -> e = KeyError \/ e = IndexError.
Proof.
  destruct obj; simpl.
  - destruct (String.get i s); intros H; inversion H. now right.
  - destruct (nth_error items i); intros H; inversion H. now right.
  - intros H; inversion H. now left.
Qed.

Definition of_outcome {A : Type} (o : outcome A) : result A :=
  match o with
  | Returned a => Return a
  | Raised name => Raise (External name)
  end.

(** [paced a c m evs r]: read from [m], the calls [evs] start [a] attempts
    and ask [c] times for a new challenge; "Try again later" is found by
    the last call at most, and exactly when the run raises
    [RecaptchaRateLimitError]; the run does not stop on an unchecked
    checkbox and does not raise [RecaptchaSolveError]. *)
Definition paced {A : Type} (a c : nat) (m : monitor) (evs : list event)
  (r : result A) : Prop :=
  starts (observe m evs) = starts m + a /\
  renewals (observe m evs) = renewals m + c /\
  (last_limited m = false -> stray_limit (observe m evs) = stray_limit m) /\
  stray_renewal (observe m evs) = stray_renewal m /\
  (evs = [] \/ last_unchecked (observe m evs) = false) /\
  (raised r = Some RecaptchaRateLimitError ->
   evs <> [] /\ last_limited (observe m evs) = true) /\
  (raised r <> Some RecaptchaRateLimitError ->
   evs = [] \/ last_limited (observe m evs) = false) /\
  raised r <> Some RecaptchaSolveError.

Lemma paced_nil {A : Type} (m : monitor) (r : result A) :
  raised r <> Some RecaptchaRateLimitError ->
  raised r <> Some RecaptchaSolveError ->
  paced 0 0 m [] r.
Proof.
  intros H1 H2. unfold paced; simpl.
  repeat split; try lia; try (now left); try assumption; intros; congruence.
Qed.

Lemma paced_recast {A B : Type} (a c : nat) (m : monitor) (evs : list event)
  (r1 : result A) (r2 : result B) :
  raised r1 = raised r2 -> paced a c m evs r1 -> paced a c m evs r2.
Proof. unfold paced. intros <-. tauto. Qed.

Lemma paced_app {A B : Type} (a1 c1 a2 c2 : nat) (m : monitor)
  (e1 e2 : list event) (x : A) (r : result B) :
  paced a1 c1 m e1 (Return x) ->
  paced a2 c2 (observe m e1) e2 r ->
  paced (a1 + a2) (c1 + c2) m (e1 ++ e2) r.
Proof.
  unfold paced. rewrite observe_app.
  intros (S1 & R1 & L1 & N1 & U1 & _ & Q1 & _) (S2 & R2 & L2 & N2 & U2 & P2 & Q2 & V2).
  assert (Q1' : e1 = [] \/ last_limited (observe m e1) = false)
    by (apply Q1; discriminate).
  repeat split; try lia; try congruence.
  - intros Hm. rewrite L2, L1; try assumption; try reflexivity.
    destruct Q1' as [->|Q1']; assumption.
  - destruct U2 as [->|U2]; [|now right].
    rewrite app_nil_r. destruct U1 as [->|U1]; [now left | now right].
  - match goal with H : raised r = _ |- _ => destruct (P2 H) as [P _] end.
    intros E. apply app_eq_nil in E. now destruct E.
  - match goal with H : raised r = _ |- _ => now destruct (P2 H) end.
  - intros H. destruct (Q2 H) as [->|Q]; [|now right].
    rewrite app_nil_r. exact Q1'.
Qed.

(** Calls that are none of those the monitor looks for. *)
Definition quiet_call {A : Type} (c : call A) : bool :=
  match c with
  | is_checked _ => false
  | is_visible (get_by_text _ t) => negb (String.eqb t "Try again later")
  | is_visible (get_by_role _ role name) =>
      negb (String.eqb role "button" && String.eqb name "Get an audio challenge")
  | click (get_by_role _ role name) =>
      negb (String.eqb role "button" && String.eqb name "Get a new challenge")
  | _ => true
  end.

Lemma quiet_call_watch {A : Type} (c : call A) (o : outcome A)
  (d : list Response) (m : monitor) :
  quiet_call c = true ->
  watch m (Ev c o d) =
  mkMonitor (starts m + 0) (renewals m + 0) false false
    (stray_limit m || last_limited m) (stray_renewal m).
Proof.
  intros H. unfold watch.
  assert (E1 : attempt_start (Ev c o d) = false).
  { destruct c; try reflexivity. destruct l; try reflexivity.
    unfold attempt_start; simpl in *. now apply negb_true_iff in H. }
  assert (E2 : new_challenge (Ev c o d) = false).
  { destruct c; try reflexivity. destruct l; try reflexivity.
    unfold new_challenge; simpl in *. now apply negb_true_iff in H. }
  assert (E3 : unchecked (Ev c o d) = false)
    by (destruct c; try reflexivity; discriminate).
  assert (E4 : rate_limited (Ev c o d) = false).
  { destruct c; try reflexivity. destruct l; try reflexivity.
    unfold rate_limited; simpl in *. apply negb_true_iff in H.
    rewrite H. now destruct o as [[]|]. }
  rewrite E1, E2, E3, E4. simpl. now rewrite orb_false_r.
Qed.

Lemma paced_quiet {A : Type} (c : call A) (o : outcome A) (d : list Response)
  (m : monitor) :
  quiet_call c = true -> paced 0 0 m [Ev c o d] (of_outcome o).
Proof.
  intros H. unfold paced, observe; simpl fold_left.
  rewrite (quiet_call_watch c o d m H); simpl.
  assert (Ho : raised (of_outcome o) <> Some RecaptchaRateLimitError)
    by (destruct o; discriminate).
  repeat split; try (now right); try lia; try contradiction.
  - intros ->. now rewrite orb_false_r.
  - destruct o; discriminate.
Qed.

Lemma watch_attempt_start (f : Frame) (o : outcome bool) (d : list Response)
  (m : monitor) :
  watch m (Ev (is_visible (get_by_role f "button" "Get an audio challenge")) o d) =
  mkMonitor (starts m + 1) (renewals m + 0) false false
    (stray_limit m || last_limited m) (stray_renewal m).
Proof. unfold watch; simpl. now rewrite orb_false_r. Qed.

Lemma watch_try_again (f : Frame) (o : outcome bool) (d : list Response)
  (m : monitor) :
  watch m (Ev (is_visible (get_by_text f "Try again later")) o d) =
  mkMonitor (starts m + 0) (renewals m + 0) false
    (match o with Returned true => true | _ => false end)
    (stray_limit m || last_limited m) (stray_renewal m).
Proof. unfold watch; simpl. now rewrite orb_false_r. Qed.

Lemma watch_is_checked (cb : Checkbox) (o : outcome bool) (d : list Response)
  (m : monitor) :
  watch m (Ev (is_checked cb) o d) =
  mkMonitor (starts m + 0) (renewals m + 0)
    (match o with Returned false => true | _ => false end) false
    (stray_limit m || last_limited m) (stray_renewal m).
Proof. unfold watch; simpl. now rewrite orb_false_r. Qed.

Lemma watch_new_challenge (f : Frame) (o : outcome unit) (d : list Response)
  (m : monitor) :
  watch m (Ev (click (get_by_role f "button" "Get a new challenge")) o d) =
  mkMonitor (starts m + 0) (renewals m + 1) false false
    (stray_limit m || last_limited m)
    (stray_renewal m || negb (last_unchecked m)).
Proof. reflexivity. Qed.

(** A call in front of a paced run, when the call itself is not one the
    monitor counts and did not find "Try again later". *)
Lemma paced_cons {A B : Type} (c : call A) (o : outcome A) (d : list Response)
  (a k : nat) (m : monitor) (evs : list event) (r : result B) :
  starts (watch m (Ev c o d)) = starts m + 0 ->
  renewals (watch m (Ev c o d)) = renewals m + 0 ->
  last_limited (watch m (Ev c o d)) = false ->
  stray_renewal (watch m (Ev c o d)) = stray_renewal m ->
  evs <> [] ->
  paced a k (watch m (Ev c o d)) evs r ->
  paced a k m (Ev c o d :: evs) r.
Proof.
  unfold paced. change (observe m (Ev c o d :: evs))
    with (observe (watch m (Ev c o d)) evs).
  intros S0 R0 L0 N0 Hne (S1 & R1 & L1 & N1 & U1 & P1 & Q1 & V1).
  repeat split; try lia; try congruence; try discriminate.
  - intros Hm. rewrite (L1 L0). simpl. rewrite Hm. apply orb_false_r.
  - destruct U1; [contradiction | now right].
  - match goal with H : raised r = _ |- _ => now destruct (P1 H) end.
  - intros H. destruct (Q1 H); [contradiction | now right].
Qed.

(** A result that is a return. *)
Definition returns {A : Type} (r : result A) : Prop := exists x, r = Return x.

Lemma paced_checked_renewed (cb : Checkbox) (f : Frame) (d0 d1 : list Response)
  (o1 : outcome unit) (m : monitor) :
  paced 0 1 m
    [Ev (is_checked cb) (Returned false) d0;
     Ev (click (get_by_role f "button" "Get a new challenge")) o1 d1]
    (of_outcome o1).
Proof.
  unfold paced, observe; simpl fold_left.
  rewrite watch_new_challenge, watch_is_checked; simpl.
  destruct o1; repeat split; try (now right); try lia; try discriminate;
    try (intros ->; now rewrite !orb_false_r); now rewrite orb_false_r.
Qed.

Lemma paced_is_checked (cb : Checkbox) (o : outcome bool) (d : list Response)
  (m : monitor) :
  o <> Returned false -> paced 0 0 m [Ev (is_checked cb) o d] (of_outcome o).
Proof.
  intros Ho. unfold paced, observe; simpl fold_left.
  rewrite watch_is_checked; simpl.
  destruct o as [[|]|]; try congruence;
    repeat split; try (now right); try lia; try discriminate;
    intros ->; now rewrite orb_false_r.
Qed.

(** [settled a c m evs r]: as [paced], for a run that may stop on an
    unchecked checkbox: it does so exactly when it raises
    [RecaptchaSolveError]. *)
Definition settled {A : Type} (a c : nat) (m : monitor) (evs : list event)
  (r : result A) : Prop :=
  starts (observe m evs) = starts m + a /\
  renewals (observe m evs) = renewals m + c /\
  (last_limited m = false -> stray_limit (observe m evs) = stray_limit m) /\
  stray_renewal (observe m evs) = stray_renewal m /\
  (raised r = Some RecaptchaRateLimitError ->
   evs <> [] /\ last_limited (observe m evs) = true) /\
  (raised r <> Some RecaptchaRateLimitError ->
   evs = [] \/ last_limited (observe m evs) = false) /\
  (raised r = Some RecaptchaSolveError ->
   evs <> [] /\ last_unchecked (observe m evs) = true) /\
  (raised r <> Some RecaptchaSolveError ->
   evs = [] \/ last_unchecked (observe m evs) = false).

Lemma paced_settled {A : Type} (a c : nat) (m : monitor) (evs : list event)
  (r : result A) :
  paced a c m evs r -> settled a c m evs r.
Proof.
  unfold paced, settled. intros (S1 & R1 & L1 & N1 & U1 & P1 & Q1 & V1).
  repeat split; try assumption; try contradiction; try (now apply P1).
  intros _. exact U1.
Qed.

Lemma settled_recast {A B : Type} (a c : nat) (m : monitor) (evs : list event)
  (r1 : result A) (r2 : result B) :
  raised r1 = raised r2 -> settled a c m evs r1 -> settled a c m evs r2.
Proof. unfold settled. intros <-. tauto. Qed.

Lemma settled_app {A B : Type} (a1 c1 a2 c2 : nat) (m : monitor)
  (e1 e2 : list event) (x : A) (r : result B) :
  paced a1 c1 m e1 (Return x) ->
  settled a2 c2 (observe m e1) e2 r ->
  settled (a1 + a2) (c1 + c2) m (e1 ++ e2) r.
Proof.
  unfold paced, settled. rewrite observe_app.
  intros (S1 & R1 & L1 & N1 & U1 & _ & Q1 & _)
         (S2 & R2 & L2 & N2 & P2 & Q2 & V2 & U2).
  assert (Q1' : e1 = [] \/ last_limited (observe m e1) = false)
    by (apply Q1; discriminate).
  assert (Hne : e2 <> [] -> e1 ++ e2 <> []).
  { intros H E. apply app_eq_nil in E. now destruct E. }
  split; [lia|]. split; [lia|]. split.
  { intros Hm. rewrite L2, L1; try assumption; try reflexivity.
    destruct Q1' as [->|Q1']; assumption. }
  split; [congruence|]. split.
  { intros H. destruct (P2 H). split; [now apply Hne | assumption]. }
  split.
  { intros H. destruct (Q2 H) as [->|Q]; [|now right].
    rewrite app_nil_r. exact Q1'. }
  split.
  { intros H. destruct (V2 H). split; [now apply Hne | assumption]. }
  intros H. destruct (U2 H) as [->|U]; [|now right].
  rewrite app_nil_r. destruct U1 as [->|U1]; [now left | now right].
Qed.

Lemma settled_cons {A B : Type} (c : call A) (o : outcome A) (d : list Response)
  (a k : nat) (m : monitor) (evs : list event) (r : result B) :
  starts (watch m (Ev c o d)) = starts m + 0 ->
  renewals (watch m (Ev c o d)) = renewals m + 0 ->
  last_limited (watch m (Ev c o d)) = false ->
  stray_renewal (watch m (Ev c o d)) = stray_renewal m ->
  evs <> [] ->
  settled a k (watch m (Ev c o d)) evs r ->
  settled a k m (Ev c o d :: evs) r.
Proof.
  unfold settled. change (observe m (Ev c o d :: evs))
    with (observe (watch m (Ev c o d)) evs).
  intros S0 R0 L0 N0 Hne (S1 & R1 & L1 & N1 & P1 & Q1 & V1 & U1).
  split; [lia|]. split; [lia|]. split.
  { intros Hm. rewrite (L1 L0). simpl. rewrite Hm. apply orb_false_r. }
  split; [congruence|]. split.
  { intros H. destruct (P1 H). split; [discriminate | assumption]. }
  split.
  { intros H. destruct (Q1 H); [contradiction | now right]. }
  split.
  { intros H. destruct (V1 H). split; [discriminate | assumption]. }
  intros H. destruct (U1 H); [contradiction | now right].
Qed.

(** The check that ends [solve_recaptcha]. *)
Lemma settled_last_check {A : Type} (cb : Checkbox) (o : outcome bool)
  (d : list Response) (m : monitor) (r : result A) :
  raised r = match o with
             | Returned true => None
             | Returned false => Some RecaptchaSolveError
             | Raised name => Some (External name)
             end ->
  settled 0 0 m [Ev (is_checked cb) o d] r.
Proof.
  intros Hr. unfold settled, observe; simpl fold_left.
  rewrite watch_is_checked; simpl. rewrite Hr.
  destruct o as [[|]|]; repeat split; try (now right); try lia;
    try discriminate; try congruence;
    try (intros ->; now rewrite orb_false_r).
Qed.

Lemma quiet_call_first_check {A : Type} (c : call A) (o : outcome A)
  (d : list Response) (evs : list event) :
  quiet_call c = true -> first_check (Ev c o d :: evs) = first_check evs.
Proof. destruct c; try reflexivity. discriminate. Qed.

(** What a whole run of [solve_recaptcha] comes to, with [n] the number
    of attempts it may make. *)
Definition verdict {A : Type} (n : nat) (evs : list event) (r : result A) : Prop :=
  exists a c,
    (forall m, settled a c m evs r) /\
    a <= n /\ c <= a /\ a <= c + 1 /\
    (first_check evs = Some (Returned false) ->
     returns r \/ raised r = Some RecaptchaSolveError ->
     (a = c /\ a = n) \/ a = c + 1).

Lemma ends_with_app (p : event -> bool) (l1 l2 : list event) :
  ends_with p (l1 ++ l2) =
  match l2 with
  | [] => ends_with p l1
  | _ => ends_with p l2
  end.
Proof.
  unfold ends_with. rewrite final_app. destruct l2 as [|e l2].
  - reflexivity.
  - destruct (final (e :: l2)) eqn:E; [reflexivity|].
    apply final_None in E. discriminate.
Qed.

Lemma first_check_app (l1 l2 : list event) :
  first_check (l1 ++ l2) =
  match first_check l1 with
  | Some o => Some o
  | None => first_check l2
  end.
Proof.
  induction l1 as [|e l1 IH]; [reflexivity|]. simpl.
  destruct (asked_checked e); [reflexivity | exact IH].
Qed.

(** The calls of [_convert_audio_to_text], by name and in order. *)
Definition library_step (e : event) : string :=
  match e with
  | Ev c _ _ =>
      match c with
      | httpx_get _ => "httpx.get"
      | from_mp3 _ => "AudioSegment.from_mp3"
      | export _ _ => "AudioSegment.export"
      | record _ => "Recognizer.record"
      | recognize_google _ _ => "Recognizer.recognize_google"
      | _ => ""
      end
  end.

Definition pipeline : list string :=
  ["httpx.get"; "AudioSegment.from_mp3"; "AudioSegment.export";
   "Recognizer.record"; "Recognizer.recognize_google"].

(** A call that raised, and what the speech service returned. *)
Definition failed (e : event) : bool :=
  match e with
  | Ev _ (Raised _) _ => true
  | _ => false
  end.

Definition recognized (e : event) : option pyobj :=
  match e with
  | Ev c o _ =>
      match c in call A return outcome A -> option pyobj with
      | recognize_google _ _ =>
          fun o => match o with Returned t => Some t | Raised _ => None end
      | _ => fun _ => None
      end o
  end.

Section Runs.

Variable W : Type.
Variable perform : forall A : Type, call A -> W -> outcome A * list Response * W.

Notation "x <- m ;; k" := (bind m (fun x => k))
  (at level 61, m at next level, right associativity).
Notation "m ;; k" := (bind m (fun _ => k))
  (at level 61, right associativity).

(** *** Taking a run apart *)

Lemma bind_inv {A B : Type} (p : M W A) (f : A -> M W B)
  (st st' : runtime W) (evs : list event) (r : result B) :
  bind p f st = (evs, r, st') ->
  (exists e1 a st1 e2,
      p st = (e1, Return a, st1) /\ f a st1 = (e2, r, st') /\ evs = e1 ++ e2) \/
  (exists x, p st = (evs, Raise x, st') /\ r = Raise x) \/
  (p st = (evs, Diverge, st') /\ r = Diverge).
Proof.
  unfold bind. destruct (p st) as [[e1 [a|x|]] st1].
  - destruct (f a st1) as [[e2 r2] st2] eqn:E. intros H; inversion H; subst.
    left. now exists e1, a, st1, e2.
  - intros H; inversion H; subst. right; left. now exists x.
  - intros H; inversion H; subst. now right; right.
Qed.

Lemma do_inv {A : Type} (c : call A) (st st' : runtime W)
  (evs : list event) (r : result A) :
  do perform c st = (evs, r, st') ->
  exists o d, evs = [Ev c o d] /\ r = of_outcome o /\
              self st' = fold_left _extract_token d (self st) /\
              listeners st' = listeners st.
Proof.
  unfold do. destruct (perform A c (browser st)) as [[o rs] w].
  intros H; inversion H; subst. exists o, (handed c st rs).
  repeat split.
Qed.

Lemma do_inv_lib {A : Type} (c : call A) (st st' : runtime W)
  (evs : list event) (r : result A) :
  playwright c = false ->
  do perform c st = (evs, r, st') ->
  exists o, evs = [Ev c o []] /\ r = of_outcome o /\ self st' = self st.
Proof.
  intros Hc. unfold do, handed. rewrite Hc. simpl.
  destruct (perform A c (browser st)) as [[o rs] w].
  intros H; inversion H; subst. exists o. repeat split.
Qed.

(** *** The token is written by the listener alone

    [replays p]: over a run of [p] the solver object changes as if
    [_extract_token] had been applied to the responses handed to it, in
    order, and to nothing else. *)
Definition replays {A : Type} (p : M W A) : Prop :=
  forall st evs r st',
    p st = (evs, r, st') ->
    self st' = fold_left _extract_token (dispatched evs) (self st).

Lemma replays_ret {A : Type} (a : A) : replays (ret a).
Proof. intros st evs r st' H; inversion H; reflexivity. Qed.

Lemma replays_raise {A : Type} (e : exn) : replays (@raise W A e).
Proof. intros st evs r st' H; inversion H; reflexivity. Qed.

Lemma replays_diverge {A : Type} : replays (@diverge W A).
Proof. intros st evs r st' H; inversion H; reflexivity. Qed.

Lemma replays_attr {A : Type} (field : SyncSolver -> A) : replays (attr field).
Proof. intros st evs r st' H; inversion H; reflexivity. Qed.

Lemma replays_lift {A : Type} (v : exn + A) : replays (@lift W A v).
Proof. destruct v; [apply replays_raise | apply replays_ret]. Qed.

Lemma replays_do {A : Type} (c : call A) : replays (do perform c).
Proof.
  intros st evs r st' H. apply do_inv in H.
  destruct H as (o & d & -> & _ & H & _). simpl. now rewrite app_nil_r.
Qed.

Lemma replays_on (event : string) (f : handler) : replays (@on W event f).
Proof. intros st evs r st' H; inversion H; reflexivity. Qed.

Lemma replays_remove_listener (event : string) (f : handler) :
  replays (@remove_listener W event f).
Proof.
  intros st evs r st'. unfold remove_listener.
  destruct (registered (event, f) (listeners st));
    intros H; inversion H; reflexivity.
Qed.

Lemma replays_bind {A B : Type} (p : M W A) (f : A -> M W B) :
  replays p -> (forall a, replays (f a)) -> replays (bind p f).
Proof.
  intros Hp Hf st evs r st' H. apply bind_inv in H.
  destruct H as [(e1 & a & st1 & e2 & H1 & H2 & ->) | [(x & H1 & _) | (H1 & _)]].
  - rewrite dispatched_app, fold_left_app.
    rewrite (Hf a _ _ _ _ H2). now rewrite (Hp _ _ _ _ H1).
  - exact (Hp _ _ _ _ H1).
  - exact (Hp _ _ _ _ H1).
Qed.

Lemma replays_if {A : Type} (b : bool) (p q : M W A) :
  replays p -> replays q -> replays (if b then p else q).
Proof. now destruct b. Qed.

Lemma replays_try_except {A : Type} (p h : M W A) (e : exn -> bool) :
  replays p -> replays h -> replays (try_except p e h).
Proof.
  intros Hp Hh st evs r st'. unfold try_except.
  destruct (p st) as [[e1 [a|x|]] st1] eqn:E1.
  - intros H; inversion H; subst. exact (Hp _ _ _ _ E1).
  - destruct (e x).
    + destruct (h st1) as [[e2 r2] st2] eqn:E2. intros H; inversion H; subst.
      rewrite dispatched_app, fold_left_app.
      rewrite (Hh _ _ _ _ E2). now rewrite (Hp _ _ _ _ E1).
    + intros H; inversion H; subst. exact (Hp _ _ _ _ E1).
  - intros H; inversion H; subst. exact (Hp _ _ _ _ E1).
Qed.

Create HintDb replays discriminated.
#[local] Hint Resolve replays_ret replays_raise replays_diverge replays_attr
  replays_lift replays_do replays_on replays_remove_listener replays_bind
  replays_if replays_try_except : replays.

Lemma replays_random_delay : replays (_random_delay perform).
Proof. unfold _random_delay. auto 10 with replays. Qed.

Lemma replays_get_audio_url_wait (fuel : nat) (f : Frame) :
  replays (_get_audio_url_wait perform fuel f).
Proof. induction fuel; simpl; auto 20 with replays. Qed.

Lemma replays_get_audio_url (fuel : nat) (f : Frame) :
  replays (_get_audio_url perform fuel f).
Proof.
  unfold _get_audio_url.
  pose proof (replays_get_audio_url_wait fuel f). auto 20 with replays.
Qed.

Lemma replays_convert_audio_to_text (audio_url : option string) :
  replays (_convert_audio_to_text perform audio_url).
Proof. unfold _convert_audio_to_text. auto 30 with replays. Qed.

Lemma replays_submit_audio_text_wait (fuel : nat) (f : Frame) (cb : Checkbox) :
  replays (_submit_audio_text_wait perform fuel f cb).
Proof. induction fuel; simpl; auto 20 with replays. Qed.

Lemma replays_submit_audio_text (fuel : nat) (f : Frame) (cb : Checkbox)
  (text : pyobj) :
  replays (_submit_audio_text perform fuel f cb text).
Proof.
  unfold _submit_audio_text.
  pose proof (replays_submit_audio_text_wait fuel f cb). auto 20 with replays.
Qed.

Lemma replays_close : replays (@close W).
Proof. unfold close. auto with replays. Qed.

#[local] Hint Resolve replays_random_delay replays_get_audio_url
  replays_convert_audio_to_text replays_submit_audio_text replays_close : replays.

Lemma replays_solve_recaptcha_loop (gas fuel : nat) (f : Frame) (cb : Checkbox)
  (retries : Z) :
  replays (solve_recaptcha_loop perform gas fuel f cb retries).
Proof.
  revert retries; induction gas as [|gas IH]; intros retries; simpl;
    destruct (Z.gtb retries 0); auto 30 with replays.
Qed.

Lemma replays_solve_recaptcha (fuel : nat) (retries : option Z) :
  replays (solve_recaptcha perform fuel retries).
Proof.
  unfold solve_recaptcha.
  pose proof replays_solve_recaptcha_loop. auto 40 with replays.
Qed.

(** *** The helpers of [solve_recaptcha], as the monitor reads them

    [tame a p]: every run of [p] is paced, starts [a] attempts and asks
    for no new challenge. *)
Definition tame {A : Type} (a : nat) (p : M W A) : Prop :=
  forall st evs r st' m, p st = (evs, r, st') -> paced a 0 m evs r.

Lemma tame_ret {A : Type} (x : A) : tame 0 (ret x).
Proof. intros st evs r st' m H; inversion H. apply paced_nil; discriminate. Qed.

Lemma tame_diverge {A : Type} : tame 0 (@diverge W A).
Proof. intros st evs r st' m H; inversion H. apply paced_nil; discriminate. Qed.

Lemma tame_attr {A : Type} (field : SyncSolver -> A) : tame 0 (attr field).
Proof. intros st evs r st' m H; inversion H. apply paced_nil; discriminate. Qed.

Lemma tame_lift_key (obj : pyobj) (key : string) :
  tame 0 (@lift W pyobj (getitem_key obj key)).
Proof.
  intros st evs r st' m H. destruct (getitem_key obj key) as [e|v] eqn:E.
  - inversion H. apply getitem_key_raises in E.
    apply paced_nil; destruct E; subst; discriminate.
  - inversion H. apply paced_nil; discriminate.
Qed.

Lemma tame_lift_index (obj : pyobj) (i : nat) :
  tame 0 (@lift W pyobj (getitem_index obj i)).
Proof.
  intros st evs r st' m H. destruct (getitem_index obj i) as [e|v] eqn:E.
  - inversion H. apply getitem_index_raises in E.
    apply paced_nil; destruct E; subst; discriminate.
  - inversion H. apply paced_nil; discriminate.
Qed.

Lemma tame_do {A : Type} (c : call A) :
  quiet_call c = true -> tame 0 (do perform c).
Proof.
  intros Hc st evs r st' m H. apply do_inv in H.
  destruct H as (o & d & -> & -> & _). now apply paced_quiet.
Qed.

Lemma tame_bind {A B : Type} (a : nat) (p : M W A) (f : A -> M W B) :
  tame a p -> (forall x, tame 0 (f x)) -> tame a (bind p f).
Proof.
  intros Hp Hf st evs r st' m H. apply bind_inv in H.
  destruct H as [(e1 & x & st1 & e2 & H1 & H2 & ->) | [(x & H1 & ->) | (H1 & ->)]].
  - replace a with (a + 0) by lia. change 0 with (0 + 0) at 2.
    eapply paced_app; [exact (Hp _ _ _ _ m H1) | exact (Hf _ _ _ _ _ _ H2)].
  - eapply paced_recast; [|exact (Hp _ _ _ _ m H1)]. reflexivity.
  - eapply paced_recast; [|exact (Hp _ _ _ _ m H1)]. reflexivity.
Qed.

Lemma tame_if {A : Type} (a : nat) (b : bool) (p q : M W A) :
  tame a p -> tame a q -> tame a (if b then p else q).
Proof. now destruct b. Qed.

Ltac paced_one :=
  repeat split; try (now right); try lia; try discriminate;
  try contradiction; try (intros ->; now rewrite orb_false_r).

Lemma bind_do_emits {A B : Type} (c : call A) (f : A -> M W B)
  (st st' : runtime W) (evs : list event) (r : result B) :
  bind (do perform c) f st = (evs, r, st') -> evs <> [].
Proof.
  intros H. apply bind_inv in H.
  destruct H as [(e1 & x & st1 & e2 & H1 & H2 & ->) | [(x & H1 & ->) | (H1 & ->)]];
    apply do_inv in H1; destruct H1 as (o & d & -> & _); discriminate.
Qed.

Lemma tame_start (f : Frame) :
  tame 1 (do perform (is_visible (get_by_role f "button" "Get an audio challenge"))).
Proof.
  intros st evs r st' m H. apply do_inv in H.
  destruct H as (o & d & -> & -> & _).
  unfold paced, observe; simpl fold_left. rewrite watch_attempt_start; simpl.
  assert (Ho : raised (of_outcome o) <> Some RecaptchaRateLimitError)
    by (destruct o; discriminate).
  destruct o; paced_one.
Qed.

(** [if ...("Try again later").is_visible(): raise RecaptchaRateLimitError] *)
Lemma tame_limit {A : Type} (f : Frame) (k : M W A) :
  tame 0 k ->
  tame 0 (later <- do perform (is_visible (get_by_text f "Try again later")) ;;
          if later then raise RecaptchaRateLimitError else k).
Proof.
  intros Hk st evs r st' m H. apply bind_inv in H.
  destruct H as [(e1 & x & st1 & e2 & H1 & H2 & ->) | [(x & H1 & ->) | (H1 & ->)]];
    apply do_inv in H1; destruct H1 as (o & d & E1 & Ho & _); subst.
  - destruct o as [b|]; [|discriminate]. inversion Ho; subst x.
    destruct b.
    + inversion H2; subst. unfold paced, observe; simpl fold_left.
      rewrite watch_try_again; simpl.
      paced_one.
    + specialize (Hk _ _ _ _ (watch m (Ev (is_visible (get_by_text f "Try again later"))
                                        (Returned false) d)) H2).
      eapply (paced_app 0 0 0 0 m [_] e2 false); [|exact Hk].
      unfold paced, observe; simpl fold_left. rewrite watch_try_again; simpl.
      paced_one.
  - destruct o as [b|n]; inversion Ho; subst.
    unfold paced, observe; simpl fold_left. rewrite watch_try_again; simpl.
    paced_one.
  - destruct o; discriminate.
Qed.

(** [is_checked] in front of a continuation that, when the checkbox is
    unchecked, goes on with one more call at least. *)
Lemma tame_checked {A : Type} (cb : Checkbox) (k1 k2 : M W A) :
  tame 0 k1 -> tame 0 k2 ->
  (forall st evs r st', k2 st = (evs, r, st') -> evs <> []) ->
  tame 0 (done <- do perform (is_checked cb) ;; if done then k1 else k2).
Proof.
  intros H1 H2 Hne st evs r st' m H. apply bind_inv in H.
  destruct H as [(e1 & x & st1 & e2 & Hd & Hk & ->) | [(x & Hd & ->) | (Hd & ->)]];
    apply do_inv in Hd; destruct Hd as (o & d & E1 & Ho & _); subst.
  - destruct o as [b|]; [|discriminate]. inversion Ho; subst x.
    destruct b.
    + specialize (H1 _ _ _ _ (watch m (Ev (is_checked cb) (Returned true) d)) Hk).
      eapply (paced_app 0 0 0 0 m [_] e2 true); [|exact H1].
      unfold paced, observe; simpl fold_left. rewrite watch_is_checked; simpl.
      paced_one.
    + simpl. apply paced_cons; try (rewrite watch_is_checked; reflexivity).
      * exact (Hne _ _ _ _ Hk).
      * exact (H2 _ _ _ _ _ Hk).
  - destruct o as [b|n]; inversion Ho; subst.
    unfold paced, observe; simpl fold_left. rewrite watch_is_checked; simpl.
    paced_one.
  - destruct o; discriminate.
Qed.

Ltac tame_step :=
  first
    [ assumption
    | apply tame_ret | apply tame_diverge | apply tame_attr
    | apply tame_lift_key | apply tame_lift_index
    | apply tame_limit
    | apply tame_start
    | apply tame_do; reflexivity
    | apply tame_if
    | apply tame_bind; [|intros ?] ].

Lemma tame_random_delay : tame 0 (_random_delay perform).
Proof. unfold _random_delay. repeat tame_step. Qed.

Lemma tame_get_audio_url_wait (fuel : nat) (f : Frame) :
  tame 0 (_get_audio_url_wait perform fuel f).
Proof. induction fuel as [|fuel IH]; simpl; repeat tame_step. Qed.

Lemma tame_get_audio_url (fuel : nat) (f : Frame) :
  tame 1 (_get_audio_url perform fuel f).
Proof.
  unfold _get_audio_url. pose proof (tame_get_audio_url_wait fuel f).
  repeat tame_step.
Qed.

Lemma tame_convert_audio_to_text (audio_url : option string) :
  tame 0 (_convert_audio_to_text perform audio_url).
Proof. unfold _convert_audio_to_text. repeat tame_step. Qed.

Lemma tame_submit_audio_text_wait (fuel : nat) (f : Frame) (cb : Checkbox) :
  tame 0 (_submit_audio_text_wait perform fuel f cb).
Proof.
  induction fuel as [|fuel IH]; simpl; [apply tame_diverge|].
  apply tame_bind; [apply tame_do; reflexivity|]. intros [|].
  - repeat tame_step.
  - apply tame_checked.
    + apply tame_ret.
    + repeat tame_step.
    + intros st evs r st'. apply bind_do_emits.
Qed.

Lemma tame_submit_audio_text (fuel : nat) (f : Frame) (cb : Checkbox)
  (text : pyobj) :
  tame 0 (_submit_audio_text perform fuel f cb text).
Proof.
  unfold _submit_audio_text. pose proof (tame_submit_audio_text_wait fuel f cb).
  repeat tame_step.
Qed.

(** *** The loop of [solve_recaptcha] *)

(** A tame step in front of a run that is paced. *)
Lemma tame_then {A B : Type} (a1 : nat) (p : M W A) (f : A -> M W B)
  (K : nat -> nat -> result B -> Prop) :
  tame a1 p ->
  (forall x st evs r st',
      f x st = (evs, r, st') ->
      exists a c, (forall m, paced a c m evs r) /\ K a c r) ->
  forall st evs r st',
    bind p f st = (evs, r, st') ->
    exists a c, (forall m, paced a c m evs r) /\
      ((exists a2, a = a1 + a2 /\ K a2 c r) \/
       (a = a1 /\ c = 0 /\ ~ returns r)).
Proof.
  intros Hp Hf st evs r st' H. apply bind_inv in H.
  destruct H as [(e1 & x & st1 & e2 & H1 & H2 & ->) | [(x & H1 & ->) | (H1 & ->)]].
  - destruct (Hf _ _ _ _ _ H2) as (a2 & c & P2 & HK).
    exists (a1 + a2), c. split.
    + intros m. change c with (0 + c).
      eapply paced_app; [exact (Hp _ _ _ _ m H1) | apply P2].
    + left. now exists a2.
  - exists a1, 0. split.
    + intros m. eapply paced_recast; [|exact (Hp _ _ _ _ m H1)]. reflexivity.
    + right. repeat split. intros [y Hy]; discriminate.
  - exists a1, 0. split.
    + intros m. eapply paced_recast; [|exact (Hp _ _ _ _ m H1)]. reflexivity.
    + right. repeat split. intros [y Hy]; discriminate.
Qed.

Lemma tame0_then {A B : Type} (p : M W A) (f : A -> M W B)
  (K : nat -> nat -> result B -> Prop) :
  tame 0 p ->
  (forall r, ~ returns r -> K 0 0 r) ->
  (forall x st evs r st',
      f x st = (evs, r, st') ->
      exists a c, (forall m, paced a c m evs r) /\ K a c r) ->
  forall st evs r st',
    bind p f st = (evs, r, st') ->
    exists a c, (forall m, paced a c m evs r) /\ K a c r.
Proof.
  intros Hp HK Hf st evs r st' H.
  destruct (tame_then 0 p f K Hp Hf _ _ _ _ H) as (a & c & P & [(a2 & -> & Ka)|(-> & -> & Hr)]).
  - now exists a2, c.
  - exists 0, 0. split; [assumption | now apply HK].
Qed.

(** The rounds of the loop: [a] attempts and [c] new challenges with
    [c <= a <= c + 1], at most [n] attempts; when the loop ends, either
    all [n] attempts were made and each was followed by a new challenge,
    or the last attempt was not. *)
Definition rounds {A : Type} (n a c : nat) (r : result A) : Prop :=
  a <= n /\ c <= a /\ a <= c + 1 /\
  (returns r -> (a = c /\ a = n) \/ a = c + 1).

(** The same for what follows the start of an attempt. *)
Definition rest_of_round {A : Type} (n a c : nat) (r : result A) : Prop :=
  a <= n - 1 /\ a <= c /\ c <= a + 1 /\
  (returns r -> (c = a + 1 /\ a = n - 1) \/ a = c).

Lemma rest_of_round_fails {A : Type} (n : nat) (r : result A) :
  ~ returns r -> rest_of_round n 0 0 r.
Proof. intros H. unfold rest_of_round. repeat split; try lia; tauto. Qed.

Lemma solve_recaptcha_loop_paced (gas fuel : nat) (f : Frame) (cb : Checkbox) :
  forall retries st evs r st',
    Z.to_nat retries <= gas ->
    solve_recaptcha_loop perform gas fuel f cb retries st = (evs, r, st') ->
    exists a c, (forall m, paced a c m evs r) /\ rounds (Z.to_nat retries) a c r.
Proof.
  induction gas as [|gas IH]; intros retries st evs r st' Hgas H;
    simpl in H; destruct (Z.gtb_spec retries 0) as [Hpos|Hneg].
  - lia.
  - inversion H; subst. exists 0, 0. split.
    + intros m. apply paced_nil; discriminate.
    + unfold rounds. lia.
  - (* one round, then the rest of the loop *)
    assert (Tail : forall st evs r st',
      (checked <- do perform (is_checked cb) ;;
       if checked then ret tt
       else
         do perform (click (get_by_role f "button" "Get a new challenge")) ;;
         solve_recaptcha_loop perform gas fuel f cb (retries - 1)) st
        = (evs, r, st') ->
      exists a c, (forall m, paced a c m evs r) /\
                  rest_of_round (Z.to_nat retries) a c r).
    { clear H st evs r st'. intros st evs r st' H. unfold rest_of_round.
      apply bind_inv in H.
      destruct H as [(e1 & x & st1 & e2 & H1 & H2 & ->) | [(x & H1 & ->) | (H1 & ->)]];
        apply do_inv in H1; destruct H1 as (o & d & E1 & Ho & _); subst.
      - destruct o as [b|]; [|discriminate]. inversion Ho; subst. destruct b.
        + inversion H2; subst. exists 0, 0. split.
          * intros m. apply (paced_is_checked cb (Returned true)). discriminate.
          * lia.
        + apply bind_inv in H2.
          destruct H2 as [(e3 & x & st3 & e4 & H3 & H4 & ->) | [(x & H3 & ->) | (H3 & ->)]];
            apply do_inv in H3; destruct H3 as (o1 & d1 & E3 & Ho1 & _); subst.
          * destruct o1 as [[]|]; [|discriminate].
            apply IH in H4; [|lia]. destruct H4 as (a & c & P & R1 & R2 & R3 & R4).
            exists a, (1 + c). split.
            -- intros m. change a with (0 + a).
               apply (paced_app 0 1 a c m [_; _] e4 tt); [|apply P].
               apply (paced_checked_renewed cb f d d1 (Returned tt)).
            -- replace (Z.to_nat (retries - 1)) with (Z.to_nat retries - 1) in * by lia.
               repeat split; try lia. intros Hr. specialize (R4 Hr). lia.
          * exists 0, 1. split.
            -- intros m. destruct o1 as [|n]; inversion Ho1; subst.
               apply (paced_checked_renewed cb f d d1 (Raised n)).
            -- repeat split; try lia; try (intros [y Hy]; subst; discriminate).
          * destruct o1; discriminate.
      - exists 0, 0. split.
        + intros m. destruct o as [|n]; inversion Ho; subst.
          apply (paced_is_checked cb (Raised n)). discriminate.
        + repeat split; try lia; try (intros [y Hy]; subst; discriminate).
      - destruct o; discriminate. }
    pose proof (fun text =>
      tame0_then _ _ (rest_of_round (Z.to_nat retries))
        (tame_submit_audio_text fuel f cb text)
        (rest_of_round_fails _) (fun _ => Tail)) as T4.
    pose proof (fun text =>
      tame0_then _ _ (rest_of_round (Z.to_nat retries))
        tame_random_delay (rest_of_round_fails _) (fun _ => T4 text)) as T3.
    pose proof (fun url =>
      tame0_then _ _ (rest_of_round (Z.to_nat retries))
        (tame_convert_audio_to_text url) (rest_of_round_fails _) T3) as T2.
    pose proof (tame_then 1 _ _ (rest_of_round (Z.to_nat retries))
        (tame_get_audio_url fuel f) T2) as T1.
    pose proof (tame_then 0 _ _ _ tame_random_delay (fun _ => T1) _ _ _ _ H) as T0.
    destruct T0 as (a & c & P & HK). exists a, c. split; [exact P|].
    unfold rounds, rest_of_round in *.
    destruct HK as [(a2 & -> & [(a3 & -> & K1 & K2 & K3 & K4)|(-> & -> & Hr)])
                   |(-> & -> & Hr)];
      repeat split; try lia; try tauto.
    intros Hret. specialize (K4 Hret). lia.
  - inversion H; subst. exists 0, 0. split.
    + intros m. apply paced_nil; discriminate.
    + unfold rounds. lia.
Qed.

(** *** A whole run of [solve_recaptcha] *)

Lemma bind_attr {A B : Type} (field : SyncSolver -> A) (f : A -> M W B)
  (st : runtime W) :
  bind (attr field) f st = f (field (self st)) st.
Proof.
  unfold bind, attr. now destruct (f (field (self st)) st) as [[e r] s].
Qed.

Lemma bind_on {B : Type} (event : string) (h : handler) (f : unit -> M W B)
  (st : runtime W) :
  bind (on event h) f st =
  f tt (mkRuntime (self st)
          (if registered (event, h) (listeners st) then listeners st
           else listeners st ++ [(event, h)])
          (browser st)).
Proof.
  unfold bind, on. match goal with |- context [f tt ?s] => now destruct (f tt s) as [[e r] s'] end.
Qed.

Lemma random_delay_emits (st st' : runtime W) (evs : list event) (r : result unit) :
  _random_delay perform st = (evs, r, st') -> evs <> [].
Proof.
  unfold _random_delay. rewrite bind_attr. apply bind_do_emits.
Qed.

Lemma solve_recaptcha_loop_emits (gas fuel : nat) (f : Frame) (cb : Checkbox)
  (retries : Z) (st st' : runtime W) (evs : list event) (r : result unit) :
  Z.to_nat retries <= gas ->
  solve_recaptcha_loop perform gas fuel f cb retries st = (evs, r, st') ->
  ~ returns r -> evs <> [].
Proof.
  intros Hgas H Hr. destruct gas as [|gas]; simpl in H;
    destruct (Z.gtb_spec retries 0) as [Hpos|Hneg]; try lia;
    try (inversion H; subst; exfalso; apply Hr; now exists tt).
  apply bind_inv in H.
  destruct H as [(e1 & x & st1 & e2 & H1 & H2 & ->) | [(x & H1 & ->) | (H1 & ->)]];
    apply random_delay_emits in H1; try assumption.
  intros E. apply app_eq_nil in E. now destruct E.
Qed.

Lemma verdict_do {A B : Type} (n : nat) (c : call A) (f : A -> M W B) :
  quiet_call c = true ->
  (forall x st evs r st', f x st = (evs, r, st') -> verdict n evs r) ->
  forall st evs r st',
    bind (do perform c) f st = (evs, r, st') -> verdict n evs r.
Proof.
  intros Hc Hf st evs r st' H. apply bind_inv in H.
  destruct H as [(e1 & x & st1 & e2 & H1 & H2 & ->) | [(x & H1 & ->) | (H1 & ->)]];
    apply do_inv in H1; destruct H1 as (o & d & E1 & Ho & _); subst.
  - destruct o as [y|]; [|discriminate]. inversion Ho; subst.
    destruct (Hf _ _ _ _ _ H2) as (a & k & P & V).
    exists a, k. split.
    + intros m. change a with (0 + a). change k with (0 + k).
      eapply settled_app; [apply (paced_quiet c (Returned y) d m Hc) | apply P].
    + simpl app. now rewrite quiet_call_first_check.
  - exists 0, 0. split.
    + intros m. apply paced_settled.
      eapply paced_recast; [|apply (paced_quiet c o d m Hc)].
      now rewrite <- Ho.
    + rewrite quiet_call_first_check by assumption. simpl.
      repeat split; try lia. discriminate.
  - destruct o; discriminate.
Qed.

(** From the first [is_checked] on. *)
Lemma solve_recaptcha_checks_verdict (fuel : nat) (f : Frame) (cb : Checkbox)
  (retries : Z) (st st' : runtime W) (evs : list event)
  (r : result (option string)) :
  (checked <- do perform (is_checked cb) ;;
   if checked then attr token
   else
     solve_recaptcha_loop perform (Z.to_nat retries) fuel f cb retries ;;
     checked <- do perform (is_checked cb) ;;
     if negb checked then raise RecaptchaSolveError
     else attr token) st = (evs, r, st') ->
  verdict (Z.to_nat retries) evs r.
Proof.
  intros H. apply bind_inv in H.
  destruct H as [(e1 & x & st1 & e2 & H1 & H2 & ->) | [(x & H1 & ->) | (H1 & ->)]];
    apply do_inv in H1; destruct H1 as (o & d & E1 & Ho & _); subst.
  2:{ destruct o as [b|name]; inversion Ho; subst. exists 0, 0. split.
      - intros m. now apply settled_last_check.
      - simpl. repeat split; try lia. discriminate. }
  2:{ destruct o; discriminate. }
  destruct o as [b|]; [|discriminate]. inversion Ho; subst. destruct b.
  { inversion H2; subst. exists 0, 0. split.
    - intros m. now apply settled_last_check.
    - simpl. repeat split; try lia. discriminate. }
  apply bind_inv in H2.
  destruct H2 as [(e3 & [] & st3 & e4 & H3 & H4 & ->) | [(x & H3 & ->) | (H3 & ->)]].
  - (* the loop ends; the last check *)
    destruct (solve_recaptcha_loop_paced _ _ _ _ _ _ _ _ _ (Nat.le_refl _) H3)
      as (a & c & P & R1 & R2 & R3 & R4).
    assert (Last : exists o' d', e4 = [Ev (is_checked cb) o' d'] /\
              raised r = match o' with
                         | Returned true => None
                         | Returned false => Some RecaptchaSolveError
                         | Raised name => Some (External name)
                         end).
    { apply bind_inv in H4.
      destruct H4 as [(e5 & x & st5 & e6 & H5 & H6 & ->) | [(x & H5 & ->) | (H5 & ->)]];
        apply do_inv in H5; destruct H5 as (o' & d' & E5 & Ho' & _); subst;
        exists o', d'.
      - destruct o' as [b|]; [|discriminate]. inversion Ho'; subst.
        destruct b; inversion H6; subst; now split.
      - destruct o'; inversion Ho'. now split.
      - destruct o'; discriminate. }
    destruct Last as (o' & d' & -> & Hr).
    exists a, c. split.
    + intros m. simpl app. apply settled_cons;
        try (rewrite watch_is_checked; reflexivity).
      * intros E. apply app_eq_nil in E. destruct E; discriminate.
      * replace a with (a + 0) by lia. replace c with (c + 0) by lia.
        eapply settled_app; [apply P | now apply settled_last_check].
    + repeat split; try lia. intros _ _. apply R4. now exists tt.
  - (* the loop raises *)
    destruct (solve_recaptcha_loop_paced _ _ _ _ _ _ _ _ _ (Nat.le_refl _) H3)
      as (a & c & P & R1 & R2 & R3 & R4).
    exists a, c. split.
    + intros m. simpl app. apply settled_cons;
        try (rewrite watch_is_checked; reflexivity).
      * apply (solve_recaptcha_loop_emits _ _ _ _ _ _ _ _ _ (Nat.le_refl _) H3).
        intros [y Hy]; discriminate.
      * apply paced_settled. eapply paced_recast; [|apply P]. reflexivity.
    + repeat split; try lia. intros _ [[y Hy]|Hs]; [discriminate|].
      exfalso. simpl in Hs. inversion Hs; subst.
      destruct (P idle) as (_ & _ & _ & _ & _ & _ & _ & V). now apply V.
  - (* the loop is cut off *)
    destruct (solve_recaptcha_loop_paced _ _ _ _ _ _ _ _ _ (Nat.le_refl _) H3)
      as (a & c & P & R1 & R2 & R3 & R4).
    exists a, c. split.
    + intros m. simpl app. apply settled_cons;
        try (rewrite watch_is_checked; reflexivity).
      * apply (solve_recaptcha_loop_emits _ _ _ _ _ _ _ _ _ (Nat.le_refl _) H3).
        intros [y Hy]; discriminate.
      * apply paced_settled. eapply paced_recast; [|apply P]. reflexivity.
    + repeat split; try lia. intros _ [[y Hy]|Hs]; discriminate.
Qed.

Lemma solve_recaptcha_verdict (fuel : nat) (retries : option Z)
  (st st' : runtime W) (evs : list event) (r : result (option string)) :
  solve_recaptcha perform fuel retries st = (evs, r, st') ->
  verdict (Z.to_nat (py_or retries (_retries (self st)))) evs r.
Proof.
  unfold solve_recaptcha. rewrite bind_on, !bind_attr. cbn [self].
  revert st' evs r.
  match goal with
  | |- forall st' evs r, _ ?s = _ -> _ => generalize s
  end.
  intros s st' evs r.
  repeat (apply verdict_do; [reflexivity|]; intros ?).
  intros s2 evs2 r2 s2'. apply solve_recaptcha_checks_verdict.
Qed.

(** *** Taking a run apart, step by step *)

Lemma bind_ret {A B : Type} (a : A) (f : A -> M W B) (st : runtime W) :
  bind (ret a) f st = f a st.
Proof. unfold bind, ret. now destruct (f a st) as [[e r] s]. Qed.

Ltac step_run :=
  match goal with
  | H : bind (attr _) _ _ = _ |- _ => rewrite bind_attr in H
  | H : bind (ret _) _ _ = _ |- _ => rewrite bind_ret in H
  | H : bind _ _ _ = _ |- _ =>
      apply bind_inv in H;
      destruct H as [(?e & ?x & ?s & ?e' & ?H1 & ?H2 & ->) | [(?x & ?H1 & ->) | (?H1 & ->)]]
  | H : do _ ?c _ = _ |- _ =>
      first
        [ apply (do_inv_lib c _ _ _ _ eq_refl) in H; destruct H as (?o & -> & ?Ho & _)
        | apply do_inv in H; destruct H as (?o & ?d & -> & ?Ho & _) ]
  | H : Return _ = of_outcome ?o |- _ =>
      destruct o; inversion H; clear H; subst
  | H : Raise _ = of_outcome ?o |- _ =>
      destruct o; inversion H; clear H; subst
  | H : Diverge = of_outcome ?o |- _ => destruct o; discriminate H
  | H : (if ?b then _ else _) _ = _ |- _ => destruct b
  | H : ret _ _ = _ |- _ => inversion H; clear H; subst
  | H : raise _ _ = _ |- _ => inversion H; clear H; subst
  | H : diverge _ = _ |- _ => inversion H; clear H; subst
  | H : lift ?v _ = _ |- _ => destruct v eqn:?; simpl in H
  end.

(** *** [_submit_audio_text] returns on either of two sights *)

Lemma submit_audio_text_wait_exit (fuel : nat) (f : Frame) (cb : Checkbox) :
  forall st evs r st',
    _submit_audio_text_wait perform fuel f cb st = (evs, r, st') ->
    (r = Return tt <->
     ends_with more_required evs = true \/ ends_with checked evs = true).
Proof.
  induction fuel as [|fuel IH]; intros st evs r st' H; simpl in H.
  - inversion H; subst. simpl. split; [discriminate | intros [E|E]; discriminate].
  - repeat step_run;
      try (simpl; split; [discriminate | intros [E|E]; discriminate]);
      try (simpl; split; [intros _; now left | reflexivity]);
      try (simpl; split; [intros _; now right | reflexivity]).
    apply IH in H2. rewrite !app_assoc, !ends_with_app.
    destruct e'0 as [|e0 rest]; [|exact H2].
    rewrite H2. simpl. tauto.
Qed.

Lemma submit_audio_text_exit (fuel : nat) (f : Frame) (cb : Checkbox)
  (text : pyobj) (st st' : runtime W) (evs : list event) (r : result unit) :
  _submit_audio_text perform fuel f cb text st = (evs, r, st') ->
  (r = Return tt <->
   ends_with more_required evs = true \/ ends_with checked evs = true).
Proof.
  unfold _submit_audio_text. intros H. repeat step_run;
    try (simpl; split; [discriminate | intros [E|E]; discriminate]).
  apply submit_audio_text_wait_exit in H2. rewrite !app_assoc, !ends_with_app.
  destruct e'0 as [|e0 rest]; [|exact H2].
  rewrite H2. simpl. tauto.
Qed.

(** *** [_convert_audio_to_text], call by call *)

Lemma convert_audio_to_text_run (audio_url : option string) (st st' : runtime W)
  (evs : list event) (r : result pyobj) :
  _convert_audio_to_text perform audio_url st = (evs, r, st') ->
  (exists n, 0 < n /\ map library_step evs = firstn n pipeline) /\
  (forall transcript,
      r = Return transcript <->
      exists content audio wav_audio audio_data text alternative first,
        evs = [Ev (httpx_get audio_url) (Returned content) [];
               Ev (from_mp3 content) (Returned audio) [];
               Ev (export audio "wav") (Returned wav_audio) [];
               Ev (record wav_audio) (Returned audio_data) [];
               Ev (recognize_google audio_data true) (Returned text) []] /\
        getitem_key text "alternative" = inr alternative /\
        getitem_index alternative 0 = inr first /\
        getitem_key first "transcript" = inr transcript).
Proof.
  unfold _convert_audio_to_text. intros H. repeat step_run; simpl app.
  all: split;
    [ first [ exists 5; split; [lia | reflexivity]
            | exists 4; split; [lia | reflexivity]
            | exists 3; split; [lia | reflexivity]
            | exists 2; split; [lia | reflexivity]
            | exists 1; split; [lia | reflexivity] ] |].
  all: intros transcript; split;
    [ try discriminate
    | intros (content & audio & wav & data & text & alt & fst & E & K1 & K2 & K3) ].
  all: try discriminate E.
  all: try (apply (f_equal (map failed)) in E; discriminate E).
  all: try (pose proof (f_equal (map recognized) E) as E';
            simpl in E'; inversion E'; subst; congruence).
  intros Hr; inversion Hr; subst.
  repeat eexists; eassumption.
Qed.

(** *** What [solve_recaptcha] returns

    [yields p Q]: when a run of [p] returns [x] and leaves the state
    [st'], [Q x st'] holds. *)
Definition yields {A : Type} (p : M W A) (Q : A -> runtime W -> Prop) : Prop :=
  forall st evs r st' x, p st = (evs, r, st') -> r = Return x -> Q x st'.

Lemma yields_bind {A B : Type} (p : M W A) (f : A -> M W B)
  (Q : B -> runtime W -> Prop) :
  (forall a, yields (f a) Q) -> yields (bind p f) Q.
Proof.
  intros Hf st evs r st' x H Hr. apply bind_inv in H.
  destruct H as [(e1 & a & st1 & e2 & H1 & H2 & ->) | [(y & H1 & ->) | (H1 & ->)]];
    try discriminate.
  exact (Hf a _ _ _ _ _ H2 Hr).
Qed.

Lemma yields_if {A : Type} (b : bool) (p q : M W A)
  (Q : A -> runtime W -> Prop) :
  yields p Q -> yields q Q -> yields (if b then p else q) Q.
Proof. now destruct b. Qed.

Lemma yields_raise {A : Type} (e : exn) (Q : A -> runtime W -> Prop) :
  yields (raise e) Q.
Proof. intros st evs r st' x H Hr. rewrite Hr in H. inversion H. Qed.

Lemma yields_token :
  yields (attr token) (fun v st' => v = token (@self W st')).
Proof.
  intros st evs r st' x H Hr. rewrite Hr in H. inversion H. reflexivity.
Qed.

Lemma solve_recaptcha_returns_token_field (fuel : nat) (retries : option Z) :
  yields (solve_recaptcha perform fuel retries)
    (fun v st' => v = token (self st')).
Proof.
  unfold solve_recaptcha.
  repeat first
    [ apply yields_token | apply yields_raise | apply yields_if
    | apply yields_bind; intros ? ].
Qed.

End Runs.

(* ------------------------------------------------------------------ *)
(** ** The listener: claims C4 and C6 *)

Lemma extract_token_on_match (self : SyncSolver) (response : Response) (tok : string) :
  userverify_url (url response) -> first_uvresp (text response) tok ->
  _extract_token self response = set_token self (Some tok).
Proof.
  intros Hu Hb. unfold _extract_token.
  pose proof (ReFacts.search_userverify (url response)) as H1.
  destruct (Re.search userverify_pattern (url response)) as [m0|]; [|contradiction].
  pose proof (ReFacts.search_uvresp (text response)) as H2.
  destruct (Re.search uvresp_pattern (text response)) as [m|].
  - destruct H2 as (tok' & -> & H2). simpl.
    now rewrite (ReFacts.first_uvresp_unique _ _ _ H2 Hb).
  - exfalso. apply H2. destruct Hb as (pre & post & Hat & _).
    now exists pre, tok, post.
Qed.

Lemma extract_token_no_match (self : SyncSolver) (response : Response) :
  ~ userverify_url (url response) \/ ~ has_uvresp (text response) ->
  _extract_token self response = self.
Proof.
  intros H. unfold _extract_token.
  pose proof (ReFacts.search_userverify (url response)) as H1.
  destruct (Re.search userverify_pattern (url response)) as [m0|]; [|reflexivity].
  pose proof (ReFacts.search_uvresp (text response)) as H2.
  destruct (Re.search uvresp_pattern (text response)) as [m|]; [|reflexivity].
  destruct H2 as (tok & _ & pre & post & Hat & _).
  destruct H as [H|H]; [contradiction|].
  exfalso. apply H. now exists pre, tok, post.
Qed.

Lemma has_uvresp_first (body : string) :
  has_uvresp body -> exists tok, first_uvresp body tok.
Proof.
  intros H. pose proof (ReFacts.search_uvresp body) as H2.
  destruct (Re.search uvresp_pattern body) as [m|]; [|contradiction].
  destruct H2 as (tok & _ & H2). now exists tok.
Qed.

Lemma extract_token_cases (self : SyncSolver) (response : Response) :
  _extract_token self response = self \/
  exists tok, userverify_url (url response) /\
              first_uvresp (text response) tok /\
              _extract_token self response = set_token self (Some tok).
Proof.
  unfold _extract_token.
  pose proof (ReFacts.search_userverify (url response)) as H1.
  destruct (Re.search userverify_pattern (url response)) as [m0|]; [|now left].
  pose proof (ReFacts.search_uvresp (text response)) as H2.
  destruct (Re.search uvresp_pattern (text response)) as [m|]; [|now left].
  destruct H2 as (tok & -> & H2). right. now exists tok.
Qed.

(** C4, as amended.  [_extract_token] sets the token exactly when the
    URL of the response has [/recaptcha/api2/userverify] or
    [/recaptcha/enterprise/userverify] in it and the body has, somewhere,
    the key [uvresp_key] followed by a text free of double quotes and of
    line breaks and by a double quote; the token is then that text at the
    leftmost such place of the body.  Otherwise the solver is left as it
    was. *)
Theorem extract_token_sets_token (self : SyncSolver) (response : Response) :
  (userverify_url (url response) /\ has_uvresp (text response) ->
   exists tok,
     first_uvresp (text response) tok /\
     _extract_token self response = set_token self (Some tok)) /\
  (~ (userverify_url (url response) /\ has_uvresp (text response)) ->
   _extract_token self response = self).
Proof.
  split.
  - intros [Hu Hb]. destruct (has_uvresp_first _ Hb) as [tok Ht].
    exists tok. split; [exact Ht | now apply extract_token_on_match].
  - intros H. destruct (extract_token_cases self response)
      as [E | (tok & Hu & (pre & post & Hat & _) & _)]; [exact E|].
    exfalso. apply H. split; [exact Hu | now exists pre, tok, post].
Qed.

(** C6.  A response whose URL is not a userverify URL, and a userverify
    response whose body has no match of the token pattern, leave the
    solver (so its token) as it was; a token that [_extract_token] leaves
    in the solver was there before or is a part of the body of a
    userverify response. *)
Theorem extract_token_frame (self : SyncSolver) (response : Response) :
  (~ userverify_url (url response) \/ ~ has_uvresp (text response) ->
   _extract_token self response = self) /\
  (forall tok,
      token (_extract_token self response) = Some tok ->
      token self = Some tok \/
      (userverify_url (url response) /\ Str.occurs tok (text response))).
Proof.
  split; [apply extract_token_no_match|].
  intros tok H. destruct (extract_token_cases self response)
    as [E | (tok' & Hu & Hb & E)]; rewrite E in H.
  - now left.
  - right. simpl in H. inversion H; subst.
    split; [exact Hu | now apply ReFacts.plain_occurs].
Qed.

(* ------------------------------------------------------------------ *)
(** ** The token field: claims C5 and C1 *)

Lemma extract_token_keeps (s : SyncSolver) (rs : list Response) :
  _page (fold_left _extract_token rs s) = _page s /\
  _retries (fold_left _extract_token rs s) = _retries s.
Proof.
  revert s; induction rs as [|r rs IH]; intros s; [now split|]. simpl.
  destruct (IH (_extract_token s r)) as [-> ->].
  destruct (extract_token_cases s r) as [-> | (tok & _ & _ & ->)]; now split.
Qed.

(** C5.  [__init__] sets the token to [None]; over a run of any method
    of the solver ([close], [__enter__], [__exit__], [_random_delay],
    [_get_audio_url], [_convert_audio_to_text], [_submit_audio_text],
    [solve_recaptcha]) the solver object changes as if [_extract_token]
    had been applied to the responses handed to the listener during the
    run, and by nothing else; and [_extract_token] leaves [_page] and
    [_retries] alone, so the token is the one attribute that changes. *)
Theorem token_written_by_listener_only (W : Type)
  (perform : forall A : Type, call A -> W -> outcome A * list Response * W) :
  (forall page retries, token (__init__ page retries) = None) /\
  (forall s rs,
      _page (fold_left _extract_token rs s) = _page s /\
      _retries (fold_left _extract_token rs s) = _retries s) /\
  replays W (@close W) /\
  replays W (@__enter__ W) /\
  replays W (@__exit__ W) /\
  replays W (_random_delay perform) /\
  (forall fuel f, replays W (_get_audio_url perform fuel f)) /\
  (forall audio_url, replays W (_convert_audio_to_text perform audio_url)) /\
  (forall fuel f cb text, replays W (_submit_audio_text perform fuel f cb text)) /\
  (forall fuel retries, replays W (solve_recaptcha perform fuel retries)).
Proof.
  split; [reflexivity|]. split; [apply extract_token_keeps|].
  split; [apply replays_close|]. split; [apply replays_attr|].
  split; [apply replays_close|]. split; [apply replays_random_delay|].
  split; [apply replays_get_audio_url|].
  split; [apply replays_convert_audio_to_text|].
  split; [apply replays_submit_audio_text|].
  apply replays_solve_recaptcha.
Qed.

(** The userverify response reaches the page during the first click and
    the checkbox is checked: the token of the response is returned. *)
Example solve_recaptcha_returns_token :
  let '(evs, r, st') :=
    solve_recaptcha Demo.perform 5 None
      (Demo.start [true] [Demo.userverify]) in
  dispatched evs = [Demo.userverify] /\ r = Return (Some "03AFcWeA").
Proof. vm_compute. repeat split. Qed.

(** C1, on the code.  The checkbox is checked by the first click and no
    userverify response has reached the listener: [solve_recaptcha]
    returns [None], the value of the token field, where the claim and the
    annotation [-> str] of the method promise a string. *)
Theorem solve_recaptcha_returns_None_when_checked :
  let '(evs, r, st') :=
    solve_recaptcha Demo.perform 5 None (Demo.start [true] []) in
  ends_with checked evs = true /\ r = Return None /\ token (self st') = None.
Proof. vm_compute. repeat split. Qed.

(* ------------------------------------------------------------------ *)
(** ** [close]: claim C10 *)

Lemma registered_filter (l : string * handler) (ls : list (string * handler)) :
  registered l (filter (fun x => negb (listener_eqb l x)) ls) = false.
Proof.
  unfold registered. induction ls as [|x ls IH]; [reflexivity|]. simpl.
  destruct (listener_eqb l x) eqn:E; simpl; [exact IH|].
  now rewrite E.
Qed.

(** C10.  [close] makes no call and returns, whatever the state: when the
    listener is registered it is removed, when it is not (before
    [solve_recaptcha], or after a first [close]) the [KeyError] of
    [remove_listener] is caught and nothing changes; a second [close]
    does nothing more. *)
Theorem close_never_raises (W : Type) (st : runtime W) :
  exists st',
    close st = ([], Return tt, st') /\
    registered ("response", self_extract_token) (listeners st') = false /\
    self st' = self st /\ browser st' = browser st /\
    (registered ("response", self_extract_token) (listeners st) = false ->
     remove_listener "response" self_extract_token st = ([], Raise KeyError, st) /\
     st' = st) /\
    close st' = ([], Return tt, st').
Proof.
  unfold close, try_except, remove_listener.
  destruct (registered ("response", self_extract_token) (listeners st)) eqn:E.
  - eexists. split; [reflexivity|]. cbn [self listeners browser].
    rewrite registered_filter. repeat split; discriminate.
  - exists st. simpl. rewrite E. repeat split.
Qed.

(* ------------------------------------------------------------------ *)
(** ** The audio pipeline: claim C7 *)

(** C7.  A run of [_convert_audio_to_text] on [audio_url] makes its calls
    in the order [httpx.get], [AudioSegment.from_mp3], [export],
    [Recognizer.record], [Recognizer.recognize_google], up to the first
    that raises; it returns [transcript] exactly when the five calls
    return, each fed with what the one before returned (the MP3 bytes of
    the URL, the decoded audio, the WAV bytes, the recorded data), and
    [transcript] is [text["alternative"][0]["transcript"]] for the
    answer [text] of the speech service. *)
Theorem convert_audio_to_text_steps (W : Type)
  (perform : forall A : Type, call A -> W -> outcome A * list Response * W)
  (audio_url : option string) (st st' : runtime W) (evs : list event)
  (r : result pyobj) :
  _convert_audio_to_text perform audio_url st = (evs, r, st') ->
  (exists n, 0 < n /\ map library_step evs = firstn n pipeline) /\
  (forall transcript,
      r = Return transcript <->
      exists content audio wav_audio audio_data text alternative first,
        evs = [Ev (httpx_get audio_url) (Returned content) [];
               Ev (from_mp3 content) (Returned audio) [];
               Ev (export audio "wav") (Returned wav_audio) [];
               Ev (record wav_audio) (Returned audio_data) [];
               Ev (recognize_google audio_data true) (Returned text) []] /\
        getitem_key text "alternative" = inr alternative /\
        getitem_index alternative 0 = inr first /\
        getitem_key first "transcript" = inr transcript).
Proof. apply convert_audio_to_text_run. Qed.

Lemma convert_audio_to_text_steps_witness :
  exists evs st',
    _convert_audio_to_text Demo.perform (Some Demo.audio_href) (Demo.start [] [])
      = (evs, Return (PyStr "seven two"), st') /\
    (exists n, 0 < n /\ map library_step evs = firstn n pipeline).
Proof.
  eexists. eexists. split; [reflexivity|].
  eapply (convert_audio_to_text_steps Demo.script Demo.perform (Some Demo.audio_href)
            (Demo.start [] []) _ _ (Return (PyStr "seven two"))).
  reflexivity.
Defined.

(* ------------------------------------------------------------------ *)
(** ** [_submit_audio_text]: claim C9 *)

(** C9.  [_submit_audio_text] returns exactly when its last call found
    the message "Multiple correct solutions required - please solve
    more." visible or found the checkbox checked.  So it can return with
    the checkbox unchecked: on the scripted browser where the message
    shows at once, it returns without a single [is_checked], and the
    [is_checked] that follows answers [False]. *)
Theorem submit_audio_text_returns_unsolved (W : Type)
  (perform : forall A : Type, call A -> W -> outcome A * list Response * W)
  (fuel : nat) (f : Frame) (cb : Checkbox) (text : pyobj)
  (st st' : runtime W) (evs : list event) (r : result unit) :
  _submit_audio_text perform fuel f cb text st = (evs, r, st') ->
  (r = Return tt <->
   ends_with more_required evs = true \/ ends_with checked evs = true) /\
  (let '(evs0, r0, st0) :=
     _submit_audio_text Demo.perform 1 (frame_ref 1) (checkbox_ref 0)
       (PyStr "seven two") (Demo.start [true] []) in
   r0 = Return tt /\ ends_with more_required evs0 = true /\
   first_check evs0 = None /\
   fst (fst (Demo.perform bool (is_checked (checkbox_ref 0)) (browser st0)))
   = Returned false).
Proof.
  intros H. split; [now apply (submit_audio_text_exit W perform fuel f cb text st st')|].
  vm_compute. repeat split.
Qed.

Lemma submit_audio_text_returns_unsolved_witness :
  Return tt = Return tt <->
  ends_with more_required
    (fst (fst (_submit_audio_text Demo.perform 1 (frame_ref 1) (checkbox_ref 0)
                 (PyStr "seven two") (Demo.start [true] [])))) = true \/
  ends_with checked
    (fst (fst (_submit_audio_text Demo.perform 1 (frame_ref 1) (checkbox_ref 0)
                 (PyStr "seven two") (Demo.start [true] [])))) = true.
Proof.
  apply (submit_audio_text_returns_unsolved Demo.script Demo.perform 1
           (frame_ref 1) (checkbox_ref 0) (PyStr "seven two")
           (Demo.start [true] []) (mkRuntime Demo.solver [] (Demo.mkScript [] [] Demo.heard))).
  reflexivity.
Defined.

(* ------------------------------------------------------------------ *)
(** ** The retry loop: claims C3 and C8 (C2 is at the end) *)

Lemma ends_with_unchecked (evs : list event) :
  last_unchecked (observe idle evs) = ends_with unchecked evs.
Proof. rewrite last_unchecked_observe. reflexivity. Qed.

Lemma ends_with_rate_limited (evs : list event) :
  last_limited (observe idle evs) = ends_with rate_limited evs.
Proof. rewrite last_limited_observe. reflexivity. Qed.

Lemma raised_Raise {A : Type} (r : result A) (e : exn) :
  raised r = Some e <-> r = Raise e.
Proof.
  destruct r; simpl; split; intros H; inversion H; reflexivity.
Qed.


Lemma raised_rate_limit_dec {A : Type} (r : result A) :
  raised r = Some RecaptchaRateLimitError \/
  raised r <> Some RecaptchaRateLimitError.
Proof.
  destruct r as [x|e|]; [right; discriminate | | right; discriminate].
  destruct e; (now left) || (right; discriminate).
Qed.

(** The scripted run used below: the checkbox is never checked, the
    audio challenge shows at once, and every answer is met by "Multiple
    correct solutions required". *)
Definition never_solved : list bool :=
  [false;                       (* is_checked after the first click *)
   false; true; true; false;    (* first attempt *)
   false; true; true; false;    (* second attempt *)
   false; true; true; false;    (* third attempt *)
   false].                      (* the last is_checked *)

(** C3, the claim as stated fails.  With three retries at hand, "Try
    again later" shows during the first attempt: [solve_recaptcha] raises
    [RecaptchaRateLimitError] there and then, after one attempt, and
    makes no further one. *)
Lemma rate_limit_ends_solve :
  let '(evs, r, _) :=
    solve_recaptcha Demo.perform 5 None
      (Demo.start [false; true; false; true] []) in
  py_or None (_retries Demo.solver) = 3%Z /\
  ends_with rate_limited evs = true /\
  r = Raise RecaptchaRateLimitError /\
  count attempt_start evs = 1.
Proof. vm_compute. repeat split. Qed.

(** C3, as amended.  In a run of [solve_recaptcha], a call that finds
    "Try again later" visible is the last call of the run, and the run
    ends on such a call exactly when it raises [RecaptchaRateLimitError]:
    the error of [_get_audio_url] and [_submit_audio_text] is not caught,
    and no attempt follows. *)
Theorem rate_limit_raises (W : Type)
  (perform : forall A : Type, call A -> W -> outcome A * list Response * W)
  (fuel : nat) (retries : option Z) (st st' : runtime W) (evs : list event)
  (r : result (option string)) :
  solve_recaptcha perform fuel retries st = (evs, r, st') ->
  only_last rate_limited evs /\
  (ends_with rate_limited evs = true <-> r = Raise RecaptchaRateLimitError).
Proof.
  intros H.
  destruct (solve_recaptcha_verdict W perform fuel retries st st' evs r H)
    as (a & c & P & _).
  destruct (P idle) as (_ & _ & L1 & _ & P1 & Q1 & _ & _).
  split.
  - apply (stray_limit_only_last evs idle). now apply L1.
  - rewrite <- ends_with_rate_limited, <- raised_Raise. split.
    + intros Hl. destruct (raised_rate_limit_dec r) as [E|E]; [exact E|].
      destruct (Q1 E) as [->|Q]; [discriminate | congruence].
    + intros Hr. now apply P1.
Qed.

Lemma rate_limit_raises_witness :
  let run := solve_recaptcha Demo.perform 5 None
               (Demo.start [false; true; false; true] []) in
  ends_with rate_limited (fst (fst run)) = true <->
  snd (fst run) = Raise RecaptchaRateLimitError.
Proof.
  intros run.
  assert (E : solve_recaptcha Demo.perform 5 None
                (Demo.start [false; true; false; true] [])
              = (fst (fst run), snd (fst run), snd run))
    by (vm_compute; reflexivity).
  apply (rate_limit_raises Demo.script Demo.perform 5 None
           (Demo.start [false; true; false; true] []) (snd run)
           (fst (fst run)) (snd (fst run)) E).
Defined.

(** C8.  A falsy [retries] argument ([None] or [0]) gives way to the
    retries of the constructor, so [solve_recaptcha] with [retries=0]
    runs as with no argument; on the scripted browser where the checkbox
    is never checked, a fresh solver (three retries) called with
    [retries=0] makes three attempts before it raises
    [RecaptchaSolveError]. *)
Theorem solve_recaptcha_falsy_retries (W : Type)
  (perform : forall A : Type, call A -> W -> outcome A * list Response * W)
  (fuel : nat) (st : runtime W) :
  py_or None (_retries (self st)) = _retries (self st) /\
  py_or (Some 0%Z) (_retries (self st)) = _retries (self st) /\
  solve_recaptcha perform fuel (Some 0%Z) st = solve_recaptcha perform fuel None st /\
  (let '(evs, r, _) :=
     solve_recaptcha Demo.perform 1 (Some 0%Z) (Demo.start never_solved []) in
   _retries Demo.solver = 3%Z /\ count attempt_start evs = 3 /\
   r = Raise RecaptchaSolveError).
Proof.
  split; [reflexivity|]. split; [reflexivity|]. split; [reflexivity|].
  vm_compute. repeat split.
Qed.

(* ------------------------------------------------------------------ *)
(** ** The listener on concrete responses *)

Lemma plain_03AFcWeA : plain "03AFcWeA".
Proof.
  intros c H. simpl in H.
  repeat (destruct H as [<-|H]; [split; discriminate|]). contradiction.
Qed.

Lemma userverify_demo : userverify_url (url Demo.userverify).
Proof. left. now exists "https://www.google.com", "?k=6LeIxAcT". Qed.

Lemma has_uvresp_demo : has_uvresp (text Demo.userverify).
Proof.
  exists (")]}'" ++ String Str.newline "" ++ "[")%string, "03AFcWeA", ",null,120]".
  split; [reflexivity | apply plain_03AFcWeA].
Qed.

Lemma extract_token_sets_token_witness :
  exists tok,
    first_uvresp (text Demo.userverify) tok /\
    _extract_token Demo.solver Demo.userverify
    = set_token Demo.solver (Some tok).
Proof.
  apply (proj1 (extract_token_sets_token Demo.solver Demo.userverify)).
  split; [apply userverify_demo | apply has_uvresp_demo].
Defined.

(** A response that is not a userverify response. *)
Definition reload : Response :=
  {| url := "https://www.google.com/recaptcha/api2/reload?k=6LeIxAcT";
     text := text Demo.userverify |}.

Lemma reload_not_userverify : ~ userverify_url (url reload).
Proof.
  pose proof (ReFacts.search_userverify (url reload)) as H.
  vm_compute in H. exact H.
Qed.

Lemma extract_token_frame_witness :
  _extract_token Demo.solver reload = Demo.solver.
Proof.
  apply (proj1 (extract_token_frame Demo.solver reload)).
  left. apply reload_not_userverify.
Defined.

(** C4, the claim as stated fails.  The URL is a userverify URL and the
    body has the key, then a text, then a double quote; the text has a
    line break in it, which [.] does not take: no token is set. *)
Lemma extract_token_line_break :
  let response :=
    {| url := "https://www.google.com/recaptcha/api2/userverify";
       text := (uvresp_key ++ "ab" ++ String Str.newline "cd" ++ q)%string |} in
  userverify_url (url response) /\
  (exists pre tok post,
      text response = (pre ++ uvresp_key ++ tok ++ q ++ post)%string) /\
  _extract_token Demo.solver response = Demo.solver /\
  token (_extract_token Demo.solver response) = None.
Proof.
  intros response. split.
  - left. now exists "https://www.google.com", "".
  - split.
    + now exists "", ("ab" ++ String Str.newline "cd")%string, "".
    + split; vm_compute; reflexivity.
Qed.

(* ------------------------------------------------------------------ *)
(** * Further properties of the solver *)

(** ** The listener over a series of responses *)

(** [matching resp]: [_extract_token] sets a token on [resp]. *)
Definition matching (resp : Response) : Prop :=
  userverify_url (url resp) /\ has_uvresp (text resp).

Lemma first_uvresp_plain (body tok : string) : first_uvresp body tok -> plain tok.
Proof. intros (pre & post & [_ Hp] & _). exact Hp. Qed.

Lemma first_uvresp_has (body tok : string) : first_uvresp body tok -> has_uvresp body.
Proof. intros (pre & post & Hat & _). now exists pre, tok, post. Qed.

Lemma extract_token_not_matching (s : SyncSolver) (resp : Response) :
  ~ matching resp -> _extract_token s resp = s.
Proof.
  intros H. destruct (extract_token_cases s resp) as [E | (tok & Hu & Hb & _)];
    [exact E|].
  exfalso. apply H. split; [exact Hu | now apply (first_uvresp_has _ tok)].
Qed.

Lemma extract_token_fold_not_matching (rs : list Response) (s : SyncSolver) :
  (forall resp, In resp rs -> ~ matching resp) ->
  fold_left _extract_token rs s = s.
Proof.
  revert s; induction rs as [|resp rs IH]; intros s H; [reflexivity|]. simpl.
  rewrite extract_token_not_matching by (apply H; now left).
  apply IH. intros r Hr. apply H. now right.
Qed.

Lemma extract_token_matching (s : SyncSolver) (resp : Response) :
  matching resp -> exists tok, _extract_token s resp = set_token s (Some tok).
Proof.
  intros [Hu Hb]. destruct (has_uvresp_first _ Hb) as [tok Ht].
  exists tok. now apply extract_token_on_match.
Qed.

Lemma extract_token_fold_none (rs : list Response) (s : SyncSolver) :
  token (fold_left _extract_token rs s) = None ->
  token s = None /\ forall resp, In resp rs -> ~ matching resp.
Proof.
  revert s; induction rs as [|r rs IH]; intros s H; [now split|]. simpl in H.
  destruct (IH _ H) as [T N].
  assert (Nr : ~ matching r).
  { intros Hm. destruct (extract_token_matching s r Hm) as [tok E].
    rewrite E in T. discriminate. }
  rewrite (extract_token_not_matching s r Nr) in T. split; [exact T|].
  intros resp [<-|Hin]; [exact Nr | now apply N].
Qed.

(** X1.  Over any series of responses the listener never unsets a token:
    a solver that has one still has one afterwards; and a token found
    afterwards was there before, or is the text, free of double quotes
    and line breaks, that follows the key at the leftmost place of the
    body of one of the responses, that one a userverify response. *)
Theorem extract_token_never_unsets (rs : list Response) (s : SyncSolver) :
  (forall t, token s = Some t ->
             exists t', token (fold_left _extract_token rs s) = Some t') /\
  (forall tok,
      token (fold_left _extract_token rs s) = Some tok ->
      token s = Some tok \/
      (plain tok /\
       exists resp, In resp rs /\ userverify_url (url resp) /\
                    first_uvresp (text resp) tok)).
Proof.
  revert s; induction rs as [|resp rs IH]; intros s.
  - simpl. split; [intros t Ht; now exists t | intros tok Ht; now left].
  - simpl. destruct (IH (_extract_token s resp)) as [K P]. split.
    + intros t Ht.
      destruct (extract_token_cases s resp) as [E | (tok & _ & _ & E)].
      * apply (K t). now rewrite E.
      * apply (K tok). now rewrite E.
    + intros tok Ht. destruct (P tok Ht) as [H | (Hp & r & Hr & Hu & Hb)].
      * destruct (extract_token_cases s resp) as [E | (tok' & Hu & Hb & E)];
          rewrite E in H; [now left|].
        simpl in H. inversion H; subst. right.
        split; [now apply (first_uvresp_plain (text resp))|].
        exists resp. split; [now left | now split].
      * right. split; [exact Hp|]. exists r. split; [now right | now split].
Qed.

Lemma extract_token_never_unsets_witness :
  exists t',
    token (fold_left _extract_token [reload; Demo.userverify; reload]
             (set_token Demo.solver (Some "old"))) = Some t'.
Proof.
  apply (proj1 (extract_token_never_unsets [reload; Demo.userverify; reload]
                  (set_token Demo.solver (Some "old"))) "old").
  reflexivity.
Defined.

(** X2.  The last response that matches decides: after a series of
    responses in which a userverify response with token [tok] is followed
    only by responses that do not match (another URL, or no token in the
    body), the token of the solver is [tok], whatever came before. *)
Theorem extract_token_last_match_wins (rs1 rs2 : list Response)
  (resp : Response) (tok : string) (s : SyncSolver) :
  userverify_url (url resp) -> first_uvresp (text resp) tok ->
  (forall r, In r rs2 -> ~ matching r) ->
  fold_left _extract_token (rs1 ++ resp :: rs2) s =
  set_token s (Some tok).
Proof.
  intros Hu Hb Hrest. rewrite fold_left_app. simpl.
  rewrite (extract_token_on_match _ resp tok Hu Hb).
  rewrite extract_token_fold_not_matching by exact Hrest.
  destruct (extract_token_keeps s rs1) as [E1 E2].
  unfold set_token. simpl. now rewrite E1, E2.
Qed.

Lemma first_uvresp_demo : first_uvresp (text Demo.userverify) "03AFcWeA".
Proof.
  destruct (has_uvresp_first _ has_uvresp_demo) as [tok Ht].
  pose proof (extract_token_on_match Demo.solver _ _ userverify_demo Ht) as E.
  vm_compute in E. inversion E; subst. exact Ht.
Qed.

Lemma reload_not_matching : ~ matching reload.
Proof. intros [H _]. now apply reload_not_userverify. Qed.

Lemma extract_token_last_match_wins_witness :
  fold_left _extract_token ([reload] ++ Demo.userverify :: [reload])
    (set_token Demo.solver (Some "old"))
  = set_token (set_token Demo.solver (Some "old")) (Some "03AFcWeA").
Proof.
  apply (extract_token_last_match_wins [reload] [reload] Demo.userverify
           "03AFcWeA" (set_token Demo.solver (Some "old"))
           userverify_demo first_uvresp_demo).
  intros r [<-|[]]. apply reload_not_matching.
Defined.

(* ------------------------------------------------------------------ *)
(** ** More on the runs of the methods *)

(** The solver's own listener. *)
Definition own : string * handler := ("response", self_extract_token).

(** The name of the exception a call raised. *)
Definition raised_by (e : event) : option string :=
  match e with
  | Ev _ (Raised name) _ => Some name
  | _ => None
  end.

Definition last_raised (evs : list event) : option string :=
  match final evs with
  | Some e => raised_by e
  | None => None
  end.

(** [loud evs r]: no call raises but the last, and the run raises a
    library exception exactly when its last call raised it. *)
Definition loud {A : Type} (evs : list event) (r : result A) : Prop :=
  existsb failed (removelast evs) = false /\
  (forall name, raised r = Some (External name) <-> last_raised evs = Some name).

Lemma failed_raised_by (e : event) :
  failed e = true <-> exists name, raised_by e = Some name.
Proof.
  destruct e as [A c [a|n] d]; simpl; split; try discriminate.
  - intros [name H]; discriminate.
  - intros _. now exists n.
  - reflexivity.
Qed.

Lemma existsb_removelast_final (p : event -> bool) (evs : list event) :
  existsb p evs =
  existsb p (removelast evs) ||
  match final evs with Some e => p e | None => false end.
Proof.
  induction evs as [|e evs IH]; [reflexivity|].
  destruct evs as [|x evs]; [simpl; now rewrite orb_false_r|].
  change (removelast (e :: x :: evs)) with (e :: removelast (x :: evs)).
  change (final (e :: x :: evs)) with (final (x :: evs)).
  change (existsb p (e :: x :: evs)) with (p e || existsb p (x :: evs)).
  change (existsb p (e :: removelast (x :: evs)))
    with (p e || existsb p (removelast (x :: evs))).
  rewrite IH. now rewrite orb_assoc.
Qed.

Lemma loud_returns_clean {A : Type} (evs : list event) (r : result A) :
  loud evs r -> (forall name, raised r <> Some (External name)) ->
  existsb failed evs = false.
Proof.
  intros [H1 H2] Hr. rewrite existsb_removelast_final, H1. simpl.
  unfold last_raised in H2. destruct (final evs) as [e|]; [|reflexivity].
  destruct (failed e) eqn:E; [|reflexivity].
  apply failed_raised_by in E. destruct E as [name E].
  exfalso. apply (Hr name). now apply H2.
Qed.

Lemma loud_nil {A : Type} (r : result A) :
  (forall name, raised r <> Some (External name)) -> loud [] r.
Proof.
  intros H. split; [reflexivity|]. intros name. split.
  - intros E. now apply H in E.
  - discriminate.
Qed.

Lemma loud_app {A B : Type} (e1 e2 : list event) (x : A) (r : result B) :
  loud e1 (Return x) -> loud e2 r -> loud (e1 ++ e2) r.
Proof.
  intros L1 [C2 R2].
  assert (C1 : existsb failed e1 = false)
    by (apply (loud_returns_clean e1 (Return x) L1); discriminate).
  destruct e2 as [|e e2].
  - rewrite app_nil_r. split; [apply L1|].
    intros name. rewrite R2. unfold last_raised. simpl.
    rewrite (existsb_removelast_final failed e1) in C1.
    apply orb_false_iff in C1. destruct C1 as [_ C1].
    destruct (final e1) as [y|]; [|reflexivity].
    split; [discriminate|]. intros E.
    assert (F : failed y = true) by (apply failed_raised_by; now exists name).
    congruence.
  - split.
    + rewrite removelast_app by discriminate. rewrite existsb_app, C1. exact C2.
    + intros name. rewrite R2. unfold last_raised. rewrite final_app.
      destruct (final (e :: e2)) eqn:E; [reflexivity|].
      apply final_None in E. discriminate.
Qed.

Lemma loud_one {A : Type} (c : call A) (o : outcome A) (d : list Response) :
  loud [Ev c o d] (of_outcome o).
Proof.
  split; [reflexivity|]. intros name. unfold last_raised. simpl.
  destruct o as [a|n]; simpl; split; intros H; inversion H; reflexivity.
Qed.

Lemma loud_recast {A B : Type} (evs : list event) (r1 : result A) (r2 : result B) :
  raised r1 = raised r2 -> loud evs r1 -> loud evs r2.
Proof. unfold loud. intros <-. tauto. Qed.

Section Further.

Variable W : Type.
Variable perform : forall A : Type, call A -> W -> outcome A * list Response * W.

Notation "x <- m ;; k" := (bind m (fun x => k))
  (at level 61, m at next level, right associativity).
Notation "m ;; k" := (bind m (fun _ => k))
  (at level 61, right associativity).

Ltac unfold_run :=
  match goal with
  | H : bind (attr _) _ _ = _ |- _ => rewrite bind_attr in H
  | H : bind (ret _) _ _ = _ |- _ => rewrite bind_ret in H
  | H : bind _ _ _ = _ |- _ =>
      apply bind_inv in H;
      destruct H as [(?e & ?x & ?s & ?e' & ?H1 & ?H2 & ->) | [(?x & ?H1 & ->) | (?H1 & ->)]]
  | H : do _ ?c _ = _ |- _ =>
      first
        [ apply (do_inv_lib W perform c _ _ _ _ eq_refl) in H;
          destruct H as (?o & -> & ?Ho & ?Hs)
        | apply do_inv in H; destruct H as (?o & ?d & -> & ?Ho & ?Hs & ?Hl) ]
  | H : Return _ = of_outcome ?o |- _ =>
      destruct o; inversion H; clear H; subst
  | H : Raise _ = of_outcome ?o |- _ =>
      destruct o; inversion H; clear H; subst
  | H : Diverge = of_outcome ?o |- _ => destruct o; discriminate H
  | H : (if ?b then _ else _) _ = _ |- _ => destruct b
  | H : ret _ _ = _ |- _ => inversion H; clear H; subst
  | H : attr _ _ = _ |- _ => inversion H; clear H; subst
  | H : raise _ _ = _ |- _ => inversion H; clear H; subst
  | H : diverge _ = _ |- _ => inversion H; clear H; subst
  | H : lift ?v _ = _ |- _ => destruct v eqn:?; simpl in H
  end.

(** *** Library exceptions pass through *)

Definition shouts {A : Type} (p : M W A) : Prop :=
  forall st evs r st', p st = (evs, r, st') -> loud evs r.

Lemma shouts_ret {A : Type} (x : A) : shouts (ret x).
Proof. intros st evs r st' H; inversion H. apply loud_nil; discriminate. Qed.

Lemma shouts_diverge {A : Type} : shouts (@diverge W A).
Proof. intros st evs r st' H; inversion H. apply loud_nil; discriminate. Qed.

Lemma shouts_attr {A : Type} (field : SyncSolver -> A) : shouts (attr field).
Proof. intros st evs r st' H; inversion H. apply loud_nil; discriminate. Qed.

Lemma shouts_raise {A : Type} (e : exn) :
  (forall name, e <> External name) -> shouts (@raise W A e).
Proof.
  intros He st evs r st' H; inversion H. apply loud_nil.
  intros name E. simpl in E. inversion E. now apply (He name).
Qed.

Lemma shouts_lift_key (obj : pyobj) (key : string) :
  shouts (@lift W pyobj (getitem_key obj key)).
Proof.
  destruct (getitem_key obj key) as [e|v] eqn:E; [|apply shouts_ret].
  apply shouts_raise. intros name ->.
  apply getitem_key_raises in E. destruct E; discriminate.
Qed.

Lemma shouts_lift_index (obj : pyobj) (i : nat) :
  shouts (@lift W pyobj (getitem_index obj i)).
Proof.
  destruct (getitem_index obj i) as [e|v] eqn:E; [|apply shouts_ret].
  apply shouts_raise. intros name ->.
  apply getitem_index_raises in E. destruct E; discriminate.
Qed.

Lemma shouts_do {A : Type} (c : call A) : shouts (do perform c).
Proof.
  intros st evs r st' H. apply do_inv in H.
  destruct H as (o & d & -> & -> & _). apply loud_one.
Qed.

Lemma shouts_on (event : string) (f : handler) : shouts (@on W event f).
Proof. intros st evs r st' H; inversion H. apply loud_nil; discriminate. Qed.

Lemma shouts_bind {A B : Type} (p : M W A) (f : A -> M W B) :
  shouts p -> (forall a, shouts (f a)) -> shouts (bind p f).
Proof.
  intros Hp Hf st evs r st' H. apply bind_inv in H.
  destruct H as [(e1 & a & st1 & e2 & H1 & H2 & ->) | [(x & H1 & ->) | (H1 & ->)]].
  - eapply loud_app; [exact (Hp _ _ _ _ H1) | exact (Hf _ _ _ _ _ H2)].
  - eapply loud_recast; [|exact (Hp _ _ _ _ H1)]. reflexivity.
  - eapply loud_recast; [|exact (Hp _ _ _ _ H1)]. reflexivity.
Qed.

Lemma shouts_if {A : Type} (b : bool) (p q : M W A) :
  shouts p -> shouts q -> shouts (if b then p else q).
Proof. now destruct b. Qed.

Ltac shouts_step :=
  first
    [ assumption
    | apply shouts_ret | apply shouts_diverge | apply shouts_attr
    | apply shouts_lift_key | apply shouts_lift_index
    | apply shouts_do | apply shouts_on
    | apply shouts_raise; discriminate
    | apply shouts_if
    | apply shouts_bind; [|intros ?] ].

Lemma shouts_random_delay : shouts (_random_delay perform).
Proof. unfold _random_delay. repeat shouts_step. Qed.

Lemma shouts_get_audio_url_wait (fuel : nat) (f : Frame) :
  shouts (_get_audio_url_wait perform fuel f).
Proof. induction fuel as [|fuel IH]; simpl; repeat shouts_step. Qed.

Lemma shouts_get_audio_url (fuel : nat) (f : Frame) :
  shouts (_get_audio_url perform fuel f).
Proof.
  unfold _get_audio_url. pose proof (shouts_get_audio_url_wait fuel f).
  repeat shouts_step.
Qed.

Lemma shouts_convert_audio_to_text (audio_url : option string) :
  shouts (_convert_audio_to_text perform audio_url).
Proof. unfold _convert_audio_to_text. repeat shouts_step. Qed.

Lemma shouts_submit_audio_text_wait (fuel : nat) (f : Frame) (cb : Checkbox) :
  shouts (_submit_audio_text_wait perform fuel f cb).
Proof. induction fuel as [|fuel IH]; simpl; repeat shouts_step. Qed.

Lemma shouts_submit_audio_text (fuel : nat) (f : Frame) (cb : Checkbox)
  (text : pyobj) :
  shouts (_submit_audio_text perform fuel f cb text).
Proof.
  unfold _submit_audio_text. pose proof (shouts_submit_audio_text_wait fuel f cb).
  repeat shouts_step.
Qed.

Lemma shouts_solve_recaptcha_loop (gas fuel : nat) (f : Frame) (cb : Checkbox)
  (retries : Z) :
  shouts (solve_recaptcha_loop perform gas fuel f cb retries).
Proof.
  revert retries; induction gas as [|gas IH]; intros retries; simpl;
    destruct (Z.gtb retries 0); try apply shouts_ret; try apply shouts_diverge.
  repeat first
    [ apply IH | apply shouts_random_delay | apply shouts_get_audio_url
    | apply shouts_convert_audio_to_text | apply shouts_submit_audio_text
    | shouts_step ].
Qed.

Lemma shouts_solve_recaptcha (fuel : nat) (retries : option Z) :
  shouts (solve_recaptcha perform fuel retries).
Proof.
  unfold solve_recaptcha.
  repeat first [ apply shouts_solve_recaptcha_loop | shouts_step ].
Qed.

(** *** What a run leaves alone

    [within I q p]: a run of [p] takes the state to one related to it by
    [I], through calls that all satisfy [q]. *)
Section Frames.

Variable I : runtime W -> runtime W -> Prop.
Variable q : event -> bool.
Hypothesis I_refl : forall st, I st st.
Hypothesis I_trans : forall a b c, I a b -> I b c -> I a c.

Definition within {A : Type} (p : M W A) : Prop :=
  forall st evs r st',
    p st = (evs, r, st') -> I st st' /\ forallb q evs = true.

Lemma within_ret {A : Type} (x : A) : within (ret x).
Proof. intros st evs r st' H; inversion H; subst. now split. Qed.

Lemma within_raise {A : Type} (e : exn) : within (@raise W A e).
Proof. intros st evs r st' H; inversion H; subst. now split. Qed.

Lemma within_diverge {A : Type} : within (@diverge W A).
Proof. intros st evs r st' H; inversion H; subst. now split. Qed.

Lemma within_attr {A : Type} (field : SyncSolver -> A) : within (attr field).
Proof. intros st evs r st' H; inversion H; subst. now split. Qed.

Lemma within_lift {A : Type} (v : exn + A) : within (@lift W A v).
Proof. destruct v; [apply within_raise | apply within_ret]. Qed.

Lemma within_bind {A B : Type} (p : M W A) (f : A -> M W B) :
  within p -> (forall a, within (f a)) -> within (bind p f).
Proof.
  intros Hp Hf st evs r st' H. apply bind_inv in H.
  destruct H as [(e1 & a & st1 & e2 & H1 & H2 & ->) | [(x & H1 & ->) | (H1 & ->)]].
  - destruct (Hp _ _ _ _ H1) as [I1 Q1]. destruct (Hf _ _ _ _ _ H2) as [I2 Q2].
    split; [now apply (I_trans _ st1) | now rewrite forallb_app, Q1, Q2].
  - exact (Hp _ _ _ _ H1).
  - exact (Hp _ _ _ _ H1).
Qed.

Lemma within_if {A : Type} (b : bool) (p p' : M W A) :
  within p -> within p' -> within (if b then p else p').
Proof. now destruct b. Qed.

End Frames.

(** The listeners of the page are left as they are. *)
Definition same_listeners (st st' : runtime W) : Prop :=
  listeners st' = listeners st.

Definition any_call (e : event) : bool := true.

Definition still {A : Type} (p : M W A) : Prop :=
  within same_listeners any_call p.

Lemma still_do {A : Type} (c : call A) : still (do perform c).
Proof.
  intros st evs r st' H. apply do_inv in H.
  destruct H as (o & d & -> & _ & _ & Hl). now split.
Qed.

Lemma same_listeners_trans (a b c : runtime W) :
  same_listeners a b -> same_listeners b c -> same_listeners a c.
Proof. unfold same_listeners. congruence. Qed.

Ltac still_step :=
  first
    [ assumption
    | apply within_ret; reflexivity
    | apply within_raise; reflexivity
    | apply within_diverge; reflexivity
    | apply within_attr; reflexivity
    | apply within_lift; reflexivity
    | apply still_do
    | apply within_if
    | apply within_bind; [exact same_listeners_trans | | intros ?] ].

Lemma still_random_delay : still (_random_delay perform).
Proof. unfold _random_delay, still. repeat still_step. Qed.

Lemma still_get_audio_url_wait (fuel : nat) (f : Frame) :
  still (_get_audio_url_wait perform fuel f).
Proof. unfold still. induction fuel as [|fuel IH]; simpl; repeat still_step. Qed.

Lemma still_get_audio_url (fuel : nat) (f : Frame) :
  still (_get_audio_url perform fuel f).
Proof.
  unfold _get_audio_url. pose proof (still_get_audio_url_wait fuel f).
  unfold still in *. repeat still_step.
Qed.

Lemma still_convert_audio_to_text (audio_url : option string) :
  still (_convert_audio_to_text perform audio_url).
Proof. unfold _convert_audio_to_text, still. repeat still_step. Qed.

Lemma still_submit_audio_text_wait (fuel : nat) (f : Frame) (cb : Checkbox) :
  still (_submit_audio_text_wait perform fuel f cb).
Proof. unfold still. induction fuel as [|fuel IH]; simpl; repeat still_step. Qed.

Lemma still_submit_audio_text (fuel : nat) (f : Frame) (cb : Checkbox)
  (text : pyobj) :
  still (_submit_audio_text perform fuel f cb text).
Proof.
  unfold _submit_audio_text. pose proof (still_submit_audio_text_wait fuel f cb).
  unfold still in *. repeat still_step.
Qed.

Lemma still_solve_recaptcha_loop (gas fuel : nat) (f : Frame) (cb : Checkbox)
  (retries : Z) :
  still (solve_recaptcha_loop perform gas fuel f cb retries).
Proof.
  revert retries; induction gas as [|gas IH]; intros retries; simpl;
    destruct (Z.gtb retries 0);
    try (apply within_ret; reflexivity); try (apply within_diverge; reflexivity).
  repeat first
    [ apply IH | apply still_random_delay | apply still_get_audio_url
    | apply still_convert_audio_to_text | apply still_submit_audio_text
    | still_step ].
Qed.

(** *** Listeners over [solve_recaptcha] and [close] *)

Lemma still_solve_recaptcha_rest (fuel : nat) (retries : option Z) :
  still
    (default <- attr _retries ;;
     page <- attr _page ;;
     do perform (wait_for_load_state page "networkidle") ;;
     fs <- do perform (frames page) ;;
     recaptcha_frame <- do perform (get_recaptcha_frame fs) ;;
     fs <- do perform (frames page) ;;
     recaptcha_checkbox <- do perform (get_recaptcha_checkbox fs) ;;
     do perform (click (checkbox recaptcha_checkbox)) ;;
     checked <- do perform (is_checked recaptcha_checkbox) ;;
     if checked then attr token
     else
       solve_recaptcha_loop perform (Z.to_nat (py_or retries default)) fuel
         recaptcha_frame recaptcha_checkbox (py_or retries default) ;;
       checked <- do perform (is_checked recaptcha_checkbox) ;;
       if negb checked then raise RecaptchaSolveError
       else attr token).
Proof.
  unfold still. repeat first [ apply still_solve_recaptcha_loop | still_step ].
Qed.

(** [listeners[event][f] = f] on a table that may hold [f] already. *)
Definition with_listener (l : string * handler) (ls : list (string * handler)) :
  list (string * handler) :=
  if registered l ls then ls else ls ++ [l].

Lemma solve_recaptcha_listeners (fuel : nat) (retries : option Z)
  (st st' : runtime W) (evs : list event) (r : result (option string)) :
  solve_recaptcha perform fuel retries st = (evs, r, st') ->
  listeners st' = with_listener own (listeners st).
Proof.
  intros H. unfold solve_recaptcha in H. rewrite bind_on in H.
  destruct (still_solve_recaptcha_rest fuel retries _ _ _ _ H) as [E _].
  exact E.
Qed.

(** *** Exceptions of the libraries *)

(** X6.  [solve_recaptcha] catches nothing: in every run, no call raises
    but the last one, and the run raises the exception [name] of a
    library (playwright's, [RecaptchaNotFoundError] of the frame lookup,
    httpx's, pydub's, the speech service's) exactly when its last call
    raised [name]. *)
Theorem solve_recaptcha_passes_exceptions (fuel : nat) (retries : option Z)
  (st st' : runtime W) (evs : list event) (r : result (option string)) :
  solve_recaptcha perform fuel retries st = (evs, r, st') ->
  only_last failed evs /\
  (forall name, r = Raise (External name) <-> last_raised evs = Some name).
Proof.
  intros H. destruct (shouts_solve_recaptcha fuel retries _ _ _ _ H) as [C R].
  split.
  - intros pre e post E He. destruct post as [|x post]; [reflexivity|].
    exfalso. subst evs.
    replace (pre ++ e :: x :: post) with ((pre ++ [e]) ++ x :: post) in C
      by now rewrite <- app_assoc.
    rewrite removelast_app in C by discriminate.
    rewrite !existsb_app in C. simpl in C. rewrite He in C.
    now rewrite orb_true_r in C.
  - intros name. rewrite <- R. symmetry. apply raised_Raise.
Qed.

(** *** No retries to spend, and a checkbox checked at once *)

Lemma solve_recaptcha_loop_none (gas fuel : nat) (f : Frame) (cb : Checkbox)
  (retries : Z) (st : runtime W) :
  (retries <= 0)%Z ->
  solve_recaptcha_loop perform gas fuel f cb retries st = ([], Return tt, st).
Proof.
  intros H. destruct gas; simpl; destruct (Z.gtb_spec retries 0); try lia;
    reflexivity.
Qed.

(** X7.  With no retries to spend (the effective number is zero or
    negative, as with [SyncSolver(page, retries=0)] and no argument),
    [solve_recaptcha] starts no attempt and asks for no new challenge; it
    makes eight calls at most, always ends (it enters no polling loop)
    and never raises [RecaptchaRateLimitError]. *)
Theorem solve_recaptcha_without_retries (fuel : nat) (retries : option Z)
  (st st' : runtime W) (evs : list event) (r : result (option string)) :
  solve_recaptcha perform fuel retries st = (evs, r, st') ->
  (py_or retries (_retries (self st)) <= 0)%Z ->
  count attempt_start evs = 0 /\ count new_challenge evs = 0 /\
  length evs <= 8 /\
  r <> Diverge /\ r <> Raise RecaptchaRateLimitError.
Proof.
  intros H N. unfold solve_recaptcha in H. rewrite bind_on in H.
  rewrite !bind_attr in H. cbn [self] in H.
  repeat unfold_run;
    try match goal with
      | H : solve_recaptcha_loop _ _ _ _ _ _ _ = _ |- _ =>
          rewrite solve_recaptcha_loop_none in H by exact N;
          inversion H; subst
      end;
    repeat unfold_run;
    simpl; repeat split; try lia; try discriminate; try reflexivity.
Qed.

(** X8.  When the first [is_checked] finds the checkbox checked,
    [solve_recaptcha] returns at once: the run is the seven calls up to
    that check, no attempt is started, and what is returned is the token
    field as it stands. *)
Theorem solve_recaptcha_checked_at_once (fuel : nat) (retries : option Z)
  (st st' : runtime W) (evs : list event) (r : result (option string)) :
  solve_recaptcha perform fuel retries st = (evs, r, st') ->
  first_check evs = Some (Returned true) ->
  r = Return (token (self st')) /\ length evs = 7 /\
  ends_with checked evs = true /\ count attempt_start evs = 0.
Proof.
  intros H F. unfold solve_recaptcha in H. rewrite bind_on in H.
  rewrite !bind_attr in H. cbn [self] in H.
  repeat unfold_run; simpl in F; try discriminate F.
  simpl. repeat split.
Qed.

(** *** The two helpers that watch for "Try again later" *)

Lemma tame_rate_limit {A : Type} (a : nat) (evs : list event) (r : result A) :
  paced a 0 idle evs r ->
  only_last rate_limited evs /\
  (r = Raise RecaptchaRateLimitError <-> ends_with rate_limited evs = true) /\
  r <> Raise RecaptchaSolveError /\
  ends_with unchecked evs = false.
Proof.
  intros (_ & _ & L & _ & U & P & Q & V). split.
  - apply (stray_limit_only_last evs idle). now apply L.
  - rewrite <- ends_with_rate_limited, <- ends_with_unchecked, <- raised_Raise.
    split; [split|split].
    + intros Hr. now apply P.
    + intros Hl. destruct (raised_rate_limit_dec r) as [E|E]; [exact E|].
      destruct (Q E) as [->|Q']; [discriminate | congruence].
    + intros E. apply V. now apply raised_Raise.
    + destruct U as [->|U]; [reflexivity | exact U].
Qed.

(** X9.  [_get_audio_url] and [_submit_audio_text] raise
    [RecaptchaRateLimitError] exactly when their last call found "Try
    again later" visible, and find it by their last call only; neither
    raises [RecaptchaSolveError], and neither ends on an [is_checked]
    that found the checkbox unchecked. *)
Theorem helpers_rate_limit (fuel : nat) (f : Frame) (cb : Checkbox)
  (text : pyobj) :
  (forall st evs r st',
      _get_audio_url perform fuel f st = (evs, r, st') ->
      only_last rate_limited evs /\
      (r = Raise RecaptchaRateLimitError <-> ends_with rate_limited evs = true) /\
      r <> Raise RecaptchaSolveError /\ ends_with unchecked evs = false) /\
  (forall st evs r st',
      _submit_audio_text perform fuel f cb text st = (evs, r, st') ->
      only_last rate_limited evs /\
      (r = Raise RecaptchaRateLimitError <-> ends_with rate_limited evs = true) /\
      r <> Raise RecaptchaSolveError /\ ends_with unchecked evs = false).
Proof.
  split; intros st evs r st' H.
  - apply (tame_rate_limit 1).
    exact (tame_get_audio_url W perform fuel f _ _ _ _ idle H).
  - apply (tame_rate_limit 0).
    exact (tame_submit_audio_text W perform fuel f cb text _ _ _ _ idle H).
Qed.

(** *** [_convert_audio_to_text] and the answer of the speech service *)

(** [text["alternative"][0]["transcript"]] *)
Definition first_transcript (text : pyobj) : exn + pyobj :=
  match getitem_key text "alternative" with
  | inl e => inl e
  | inr alternative =>
      match getitem_index alternative 0 with
      | inl e => inl e
      | inr first => getitem_key first "transcript"
      end
  end.

Definition of_sum {A : Type} (v : exn + A) : result A :=
  match v with
  | inl e => Raise e
  | inr a => Return a
  end.

(** X10.  Once the speech service has answered [text],
    [_convert_audio_to_text] ends as [text["alternative"][0]["transcript"]]
    does: a list or a string for [text] (the service heard nothing)
    raises [TypeError], a dictionary without ["alternative"] raises
    [KeyError], an empty list of alternatives raises [IndexError], a
    first alternative without ["transcript"] raises [KeyError]; no
    default is put in place of a missing transcript. *)
Theorem convert_audio_to_text_answers (audio_url : option string) (st st' : runtime W)
  (evs : list event) (r : result pyobj) (text : pyobj) :
  _convert_audio_to_text perform audio_url st = (evs, r, st') ->
  (exists e, final evs = Some e /\ recognized e = Some text) ->
  r = of_sum (first_transcript text) /\
  (forall items, text = PyList items -> r = Raise TypeError) /\
  (forall s, text = PyStr s -> r = Raise TypeError) /\
  (forall items,
      text = PyDict items ->
      find (fun kv => String.eqb (fst kv) "alternative") items = None ->
      r = Raise KeyError) /\
  (getitem_key text "alternative" = inr (PyList []) -> r = Raise IndexError) /\
  (forall rest items,
      getitem_key text "alternative" = inr (PyList (PyDict items :: rest)) ->
      find (fun kv => String.eqb (fst kv) "transcript") items = None ->
      r = Raise KeyError).
Proof.
  intros H (e & Hf & Hrec).
  assert (R : r = of_sum (first_transcript text)).
  { unfold _convert_audio_to_text in H. unfold first_transcript.
    repeat unfold_run; simpl in Hf; inversion Hf; subst e;
      simpl in Hrec; try discriminate Hrec; inversion Hrec; subst;
      repeat match goal with
        | E : getitem_key _ _ = _ |- _ => rewrite E; clear E
        | E : getitem_index _ _ = _ |- _ => rewrite E; clear E
        end; reflexivity. }
  split; [exact R|]. rewrite R. unfold first_transcript.
  split; [intros items ->; reflexivity|].
  split; [intros s ->; reflexivity|].
  split; [intros items -> E; simpl; now rewrite E|].
  split; [intros E; now rewrite E|].
  intros rest items E E'. rewrite E. simpl. now rewrite E'.
Qed.

(** A call to a library other than playwright, during which nothing is
    handed to the listener. *)
Definition library_call (e : event) : bool :=
  match e with
  | Ev c _ d => negb (playwright c) && match d with [] => true | _ => false end
  end.

Definition untouched (st st' : runtime W) : Prop :=
  self st' = self st /\ listeners st' = listeners st.

Lemma untouched_trans (a b c : runtime W) :
  untouched a b -> untouched b c -> untouched a c.
Proof. unfold untouched. intros [-> ->] [-> ->]. now split. Qed.

Lemma untouched_do {A : Type} (c : call A) :
  playwright c = false -> within untouched library_call (do perform c).
Proof.
  intros Hc st evs r st' H. pose proof H as H'.
  apply (do_inv_lib W perform c _ _ _ _ Hc) in H.
  destruct H as (o & -> & _ & Hs).
  apply do_inv in H'. destruct H' as (o' & d' & _ & _ & _ & Hl).
  split; [now split|]. simpl. now rewrite Hc.
Qed.

(** X11.  [_convert_audio_to_text] is a static method and behaves as
    one: it makes no call to playwright, so no response reaches the
    listener while it runs, and it leaves the solver (token included) and
    the listeners of the page as they were. *)
Theorem convert_audio_to_text_static (audio_url : option string) (st st' : runtime W)
  (evs : list event) (r : result pyobj) :
  _convert_audio_to_text perform audio_url st = (evs, r, st') ->
  self st' = self st /\ listeners st' = listeners st /\
  forallb library_call evs = true /\ dispatched evs = [].
Proof.
  intros H.
  assert (Wi : within untouched library_call
                 (_convert_audio_to_text perform audio_url)).
  { unfold _convert_audio_to_text.
    repeat first
      [ apply untouched_do; reflexivity
      | apply within_lift; now split
      | apply within_bind; [exact untouched_trans | | intros ?] ]. }
  destruct (Wi _ _ _ _ H) as [[E1 E2] Q]. repeat split; try assumption.
  clear H. induction evs as [|e evs IH]; [reflexivity|].
  simpl in Q. apply andb_true_iff in Q. destruct Q as [Q1 Q2].
  unfold dispatched in *. simpl. rewrite (IH Q2), app_nil_r.
  destruct e as [A c o d]. simpl in *. apply andb_true_iff in Q1.
  destruct d; [reflexivity | now destruct Q1].
Qed.

(** *** How [_get_audio_url] polls *)

Definition play_asked (e : event) : bool :=
  match asked_visible e with
  | Some (get_by_text _ t, _) => String.eqb t "Press PLAY to listen"
  | _ => false
  end.

Definition play_found (e : event) : bool :=
  match asked_visible e with
  | Some (get_by_text _ t, Returned true) => String.eqb t "Press PLAY to listen"
  | _ => false
  end.

Definition limit_asked (e : event) : bool :=
  match asked_visible e with
  | Some (get_by_text _ t, _) => String.eqb t "Try again later"
  | _ => false
  end.

Definition waited_100 (e : event) : bool :=
  match e with
  | Ev c _ _ =>
      match c with
      | wait_for_timeout _ ms => Z.eqb ms 100
      | _ => false
      end
  end.

Definition audio_button_found (e : event) : bool :=
  match asked_visible e with
  | Some (get_by_role _ role name, Returned true) =>
      String.eqb role "button" && String.eqb name "Get an audio challenge"
  | _ => false
  end.

Definition audio_button_clicked (e : event) : bool :=
  match clicked e with
  | Some (get_by_role _ role name) =>
      String.eqb role "button" && String.eqb name "Get an audio challenge"
  | _ => false
  end.

(** What [get_attribute] returned. *)
Definition fetched (e : event) : option (option string) :=
  match e with
  | Ev c o _ =>
      match c in call A return outcome A -> option (option string) with
      | get_attribute _ _ =>
          fun o => match o with Returned h => Some h | Raised _ => None end
      | _ => fun _ => None
      end o
  end.

Definition is_fetch (e : event) : bool :=
  match fetched e with
  | Some _ => true
  | None => false
  end.

Definition last_fetched (evs : list event) : option (option string) :=
  match final evs with
  | Some e => fetched e
  | None => None
  end.

Lemma last_fetched_app (l1 l2 : list event) :
  last_fetched (l1 ++ l2) =
  match l2 with
  | [] => last_fetched l1
  | _ => last_fetched l2
  end.
Proof.
  unfold last_fetched. rewrite final_app. destruct l2 as [|e l2]; [reflexivity|].
  destruct (final (e :: l2)) eqn:E; [reflexivity|].
  apply final_None in E. discriminate.
Qed.

Lemma count_zero_final (p : event -> bool) (evs : list event) (e : event) :
  count p evs = 0 -> final evs = Some e -> p e = false.
Proof.
  unfold count. induction evs as [|x evs IH]; [discriminate|].
  rewrite final_cons. simpl. destruct (p x) eqn:Px; [discriminate|].
  intros C. destruct (final evs) as [y|] eqn:F.
  - intros E; inversion E; subst. now apply IH.
  - intros E; inversion E; subst. exact Px.
Qed.

Lemma no_fetch_last (evs : list event) :
  count is_fetch evs = 0 -> last_fetched evs = None.
Proof.
  intros C. unfold last_fetched. destruct (final evs) as [e|] eqn:F; [|reflexivity].
  pose proof (count_zero_final is_fetch evs e C F) as H.
  unfold is_fetch in H. now destruct (fetched e).
Qed.

Lemma get_audio_url_wait_polls (fuel : nat) (f : Frame) :
  forall st evs r st',
    _get_audio_url_wait perform fuel f st = (evs, r, st') ->
    count waited_100 evs <= count limit_asked evs /\
    count limit_asked evs <= count play_asked evs /\
    count play_asked evs <= count waited_100 evs + 1 /\
    (r = Return tt <-> ends_with play_found evs = true) /\
    (r = Return tt ->
     count limit_asked evs = count waited_100 evs /\
     count play_asked evs = count waited_100 evs + 1 /\
     count play_found evs = 1) /\
    count audio_button_clicked evs = 0 /\
    count audio_button_found evs = 0 /\
    count is_fetch evs = 0.
Proof.
  induction fuel as [|fuel IH]; intros st evs r st' H; simpl in H.
  - inversion H; subst. unfold count. simpl.
    repeat split; try lia; try discriminate; try reflexivity.
  - repeat unfold_run;
      try (unfold count; simpl; repeat split; try lia; try discriminate;
           reflexivity).
    apply IH in H2.
    destruct H2 as (A1 & A2 & A3 & A4 & A5 & A6 & A7 & A8).
    clear IH.
    rewrite !app_assoc, !count_app, ends_with_app. unfold count in *. simpl.
    split; [lia|]. split; [lia|]. split; [lia|]. split.
    { match goal with
      | |- context [match ?l with [] => _ | _ :: _ => _ end] => destruct l
      end; [|exact A4].
      rewrite A4. simpl. tauto. }
    split; [intros Hr; specialize (A5 Hr); lia|].
    split; [lia|]. split; lia.
Qed.

Lemma last_fetched_snoc (evs : list event) (e : event) :
  last_fetched (evs ++ [e]) = fetched e.
Proof. now rewrite last_fetched_app. Qed.

Lemma last_fetched_none_app (l1 l2 : list event) :
  last_fetched l1 = None -> count is_fetch l2 = 0 ->
  last_fetched (l1 ++ l2) = None.
Proof.
  intros H1 H2. rewrite last_fetched_app. destruct l2; [exact H1|].
  now apply no_fetch_last.
Qed.

(** X12.  [_get_audio_url] returns [href] ([None] when the link has no
    such attribute) exactly when its last call is the [get_attribute]
    that returned [href]; it clicks the
    audio-challenge button as often as it found it visible, so once at
    most.  In every run the waits of 100 ms are at most as many as the
    questions for "Try again later", these at most as many as the polls
    for "Press PLAY to listen", and these at most one more than the
    waits; when it returns, one poll found "Press PLAY to listen", the
    questions are as many as the waits and the polls one more. *)
Theorem get_audio_url_polls (fuel : nat) (f : Frame) (st st' : runtime W)
  (evs : list event) (r : result (option string)) :
  _get_audio_url perform fuel f st = (evs, r, st') ->
  (forall href, r = Return href <-> last_fetched evs = Some href) /\
  count audio_button_clicked evs = count audio_button_found evs /\
  count audio_button_clicked evs <= 1 /\
  count waited_100 evs <= count limit_asked evs /\
  count limit_asked evs <= count play_asked evs /\
  count play_asked evs <= count waited_100 evs + 1 /\
  (returns r ->
   count play_found evs = 1 /\
   count limit_asked evs = count waited_100 evs /\
   count play_asked evs = count waited_100 evs + 1).
Proof.
  unfold _get_audio_url. intros H. repeat unfold_run;
    try match goal with
      | H : _get_audio_url_wait _ _ _ _ = _ |- _ =>
          apply get_audio_url_wait_polls in H;
          destruct H as (A1 & A2 & A3 & A4 & A5 & A6 & A7 & A8)
      end;
    repeat match goal with
      | o : outcome _ |- _ => destruct o
      | x : unit |- _ => destruct x
      end;
    try specialize (A5 eq_refl);
    rewrite ?app_assoc, ?last_fetched_snoc;
    try (rewrite last_fetched_none_app by first [reflexivity | exact A8]);
    rewrite ?count_app; unfold count in *; simpl;
    (split; [intros href; split; intros E; inversion E; reflexivity|]);
    repeat split;
    try match goal with
      | R : returns _ |- _ => destruct R as [y Hy]; try discriminate
      end;
    try lia.
Qed.

(** *** How [_submit_audio_text] polls *)

Definition more_asked (e : event) : bool :=
  match asked_visible e with
  | Some (get_by_text _ t, _) =>
      String.eqb t "Multiple correct solutions required - please solve more."
  | _ => false
  end.

Definition more_absent (e : event) : bool :=
  match asked_visible e with
  | Some (get_by_text _ t, Returned false) =>
      String.eqb t "Multiple correct solutions required - please solve more."
  | _ => false
  end.

Definition is_check (e : event) : bool :=
  match asked_checked e with
  | Some _ => true
  | None => false
  end.

Definition filled (e : event) : option (Locator * pyobj) :=
  match e with
  | Ev c _ _ =>
      match c with
      | fill l v => Some (l, v)
      | _ => None
      end
  end.

Definition is_fill (e : event) : bool :=
  match filled e with
  | Some _ => true
  | None => false
  end.

Definition is_click (e : event) : bool :=
  match clicked e with
  | Some _ => true
  | None => false
  end.

Lemma submit_audio_text_wait_polls (fuel : nat) (f : Frame) (cb : Checkbox) :
  forall st evs r st',
    _submit_audio_text_wait perform fuel f cb st = (evs, r, st') ->
    count is_check evs = count more_absent evs /\
    count limit_asked evs = count unchecked evs /\
    count waited_100 evs <= count limit_asked evs /\
    count more_asked evs <= count waited_100 evs + 1 /\
    count is_fill evs = 0 /\
    count is_click evs = 0.
Proof.
  induction fuel as [|fuel IH]; intros st evs r st' H; simpl in H.
  - inversion H; subst. unfold count. simpl. repeat split; lia.
  - repeat unfold_run;
      try (unfold count; simpl; repeat split; lia).
    all: match goal with
         | H : _submit_audio_text_wait _ _ _ _ _ = _ |- _ => apply IH in H;
             destruct H as (A1 & A2 & A3 & A4 & A5 & A6)
         end;
      clear IH; rewrite ?app_assoc, ?count_app; unfold count in *; simpl;
      repeat split; lia.
Qed.

(** X14.  [_submit_audio_text] first types the text it was given, as it
    is, into the box "Enter what you hear" of the frame and fills nothing
    after that; its second call, if there is one, is the click on
    "Verify", and it clicks once at most.  In its loop the [or] is lazy:
    the checkbox is asked as often as a poll did not find "Multiple
    correct solutions required", "Try again later" is asked as often as
    [is_checked] answered [False], the waits of 100 ms are at most as many
    as these questions, and the polls at most one more than the waits. *)
Theorem submit_audio_text_polls (fuel : nat) (f : Frame) (cb : Checkbox)
  (text : pyobj) (st st' : runtime W) (evs : list event) (r : result unit) :
  _submit_audio_text perform fuel f cb text st = (evs, r, st') ->
  (exists e rest,
      evs = e :: rest /\
      filled e = Some (get_by_role f "textbox" "Enter what you hear", text) /\
      count is_fill rest = 0) /\
  (forall e, nth_error evs 1 = Some e ->
             clicked e = Some (get_by_role f "button" "Verify")) /\
  count is_click evs <= 1 /\
  count is_check evs = count more_absent evs /\
  count limit_asked evs = count unchecked evs /\
  count waited_100 evs <= count limit_asked evs /\
  count more_asked evs <= count waited_100 evs + 1.
Proof.
  unfold _submit_audio_text. intros H. repeat unfold_run;
    try match goal with
      | H : _submit_audio_text_wait _ _ _ _ _ = _ |- _ =>
          apply submit_audio_text_wait_polls in H;
          destruct H as (A1 & A2 & A3 & A4 & A5 & A6)
      end;
    (split; [eexists; eexists; split; [reflexivity|]; split; [reflexivity|];
             rewrite ?count_app; unfold count in *; simpl; lia|]);
    (split; [intros e E; simpl in E; try discriminate E; inversion E; reflexivity|]);
    rewrite ?app_assoc, ?count_app; unfold count in *; simpl;
    repeat split; lia.
Qed.

(** *** The calls [solve_recaptcha] makes, and no others *)

Definition buttons : list string :=
  ["Get an audio challenge"; "Verify"; "Get a new challenge"].

Definition messages : list string :=
  ["Press PLAY to listen"; "Try again later";
   "Multiple correct solutions required - please solve more."].

(** The calls found in the source of [SyncSolver], whatever the page,
    the frame and the checkbox they are made on. *)
Definition scripted {A : Type} (c : call A) : bool :=
  match c with
  | wait_for_load_state _ state => String.eqb state "networkidle"
  | wait_for_timeout _ ms => Z.eqb ms 100 || Z.eqb (ms mod 1000) 0
  | click (checkbox _) => true
  | click (get_by_role _ role name) =>
      String.eqb role "button" && existsb (String.eqb name) buttons
  | click (get_by_text _ _) => false
  | fill (get_by_role _ role name) _ =>
      String.eqb role "textbox" && String.eqb name "Enter what you hear"
  | fill _ _ => false
  | is_visible (get_by_role _ role name) =>
      String.eqb role "button" && String.eqb name "Get an audio challenge"
  | is_visible (get_by_text _ t) => existsb (String.eqb t) messages
  | is_visible (checkbox _) => false
  | get_attribute (get_by_role _ role name) a =>
      String.eqb role "link"
      && String.eqb name "Alternatively, download audio as MP3"
      && String.eqb a "href"
  | get_attribute _ _ => false
  | randint a b => Z.eqb a 1 && Z.eqb b 4
  | export _ format => String.eqb format "wav"
  | recognize_google _ show_all => show_all
  | frames _ | get_recaptcha_frame _ | get_recaptcha_checkbox _
  | is_checked _ | httpx_get _ | from_mp3 _ | record _ => true
  end.

Definition scripted_call (e : event) : bool :=
  match e with
  | Ev c _ _ => scripted c
  end.

Definition anyhow (st st' : runtime W) : Prop := True.

Lemma anyhow_trans (a b c : runtime W) : anyhow a b -> anyhow b c -> anyhow a c.
Proof. trivial. Qed.

Definition by_the_script {A : Type} (p : M W A) : Prop :=
  within anyhow scripted_call p.

Lemma by_the_script_do {A : Type} (c : call A) :
  scripted c = true -> by_the_script (do perform c).
Proof.
  intros Hc st evs r st' H. apply do_inv in H.
  destruct H as (o & d & -> & _). split; [exact Logic.I|]. simpl. now rewrite Hc.
Qed.

Lemma scripted_delay (page : Page) (n : Z) :
  scripted (wait_for_timeout page (n * 1000)) = true.
Proof.
  simpl. rewrite Z.mod_mul by lia. simpl. apply orb_true_r.
Qed.

Ltac script_step :=
  first
    [ assumption
    | apply within_ret; easy
    | apply within_raise; easy
    | apply within_diverge; easy
    | apply within_attr; easy
    | apply within_lift; easy
    | apply by_the_script_do; first [reflexivity | apply scripted_delay]
    | apply within_if
    | apply within_bind; [exact anyhow_trans | | intros ?] ].

Lemma by_the_script_random_delay : by_the_script (_random_delay perform).
Proof. unfold _random_delay, by_the_script. repeat script_step. Qed.

Lemma by_the_script_get_audio_url_wait (fuel : nat) (f : Frame) :
  by_the_script (_get_audio_url_wait perform fuel f).
Proof.
  unfold by_the_script. induction fuel as [|fuel IH]; simpl; repeat script_step.
Qed.

Lemma by_the_script_get_audio_url (fuel : nat) (f : Frame) :
  by_the_script (_get_audio_url perform fuel f).
Proof.
  unfold _get_audio_url. pose proof (by_the_script_get_audio_url_wait fuel f).
  unfold by_the_script in *. repeat script_step.
Qed.

Lemma by_the_script_convert_audio_to_text (audio_url : option string) :
  by_the_script (_convert_audio_to_text perform audio_url).
Proof. unfold _convert_audio_to_text, by_the_script. repeat script_step. Qed.

Lemma by_the_script_submit_audio_text_wait (fuel : nat) (f : Frame)
  (cb : Checkbox) :
  by_the_script (_submit_audio_text_wait perform fuel f cb).
Proof.
  unfold by_the_script. induction fuel as [|fuel IH]; simpl; repeat script_step.
Qed.

Lemma by_the_script_submit_audio_text (fuel : nat) (f : Frame) (cb : Checkbox)
  (text : pyobj) :
  by_the_script (_submit_audio_text perform fuel f cb text).
Proof.
  unfold _submit_audio_text.
  pose proof (by_the_script_submit_audio_text_wait fuel f cb).
  unfold by_the_script in *. repeat script_step.
Qed.

Lemma by_the_script_solve_recaptcha_loop (gas fuel : nat) (f : Frame)
  (cb : Checkbox) (retries : Z) :
  by_the_script (solve_recaptcha_loop perform gas fuel f cb retries).
Proof.
  revert retries; induction gas as [|gas IH]; intros retries; simpl;
    destruct (Z.gtb retries 0);
    try (apply within_ret; easy);
    try (apply within_diverge; easy).
  repeat first
    [ apply IH | apply by_the_script_random_delay
    | apply by_the_script_get_audio_url
    | apply by_the_script_convert_audio_to_text
    | apply by_the_script_submit_audio_text
    | script_step ].
Qed.

Lemma by_the_script_on (event : string) (h : handler) :
  by_the_script (@on W event h).
Proof. intros st evs r st' H; inversion H; subst. now split. Qed.

(** X15.  [solve_recaptcha] acts on the widget only.  Every click of a
    run is on the checkbox or on one of the buttons "Get an audio
    challenge", "Verify" and "Get a new challenge"; every [fill] is on the
    box "Enter what you hear"; what it asks to be visible is the
    audio-challenge button or one of the three messages; the one
    attribute it reads is the [href] of the download link; it waits for
    100 ms or for whole seconds; it draws random numbers between 1 and 4
    only, exports to wav and asks the speech service for all its
    results. *)
Theorem solve_recaptcha_by_the_script (fuel : nat) (retries : option Z)
  (st st' : runtime W) (evs : list event) (r : result (option string)) :
  solve_recaptcha perform fuel retries st = (evs, r, st') ->
  forallb scripted_call evs = true /\
  (forall e l, In e evs -> clicked e = Some l ->
     (exists cb, l = checkbox cb) \/
     (exists f name, l = get_by_role f "button" name /\ In name buttons)) /\
  (forall e l v, In e evs -> filled e = Some (l, v) ->
     exists f, l = get_by_role f "textbox" "Enter what you hear") /\
  (forall e l o, In e evs -> asked_visible e = Some (l, o) ->
     (exists f, l = get_by_role f "button" "Get an audio challenge") \/
     (exists f t, l = get_by_text f t /\ In t messages)).
Proof.
  intros H.
  assert (S : forallb scripted_call evs = true).
  { assert (B : by_the_script (solve_recaptcha perform fuel retries)).
    { unfold solve_recaptcha, by_the_script.
      repeat first
        [ apply by_the_script_solve_recaptcha_loop | apply by_the_script_on
        | script_step ]. }
    exact (proj2 (B _ _ _ _ H)). }
  split; [exact S|]. rewrite forallb_forall in S.
  split; [|split].
  - intros e l He Hc. specialize (S e He). destruct e as [A c o d].
    destruct c; simpl in Hc; try discriminate Hc. inversion Hc; subst l0.
    destruct l as [f role name | f t | cb]; cbv beta iota delta [scripted_call scripted] in S.
    + right. apply andb_true_iff in S. destruct S as [S1 S2].
      apply String.eqb_eq in S1. subst role. exists f, name. split; [reflexivity|].
      apply existsb_exists in S2. destruct S2 as (x & Hx & E).
      apply String.eqb_eq in E. now subst.
    + discriminate S.
    + left. now exists cb.
  - intros e l v He Hf. specialize (S e He). destruct e as [A c o d].
    destruct c; simpl in Hf; try discriminate Hf. inversion Hf; subst.
    destruct l as [f role name | f t | cb]; cbv beta iota delta [scripted_call scripted] in S; try discriminate S.
    apply andb_true_iff in S. destruct S as [S1 S2].
    apply String.eqb_eq in S1. apply String.eqb_eq in S2. subst. now exists f.
  - intros e l o He Hv. specialize (S e He). destruct e as [A c o' d].
    destruct c; simpl in Hv; try discriminate Hv. inversion Hv; subst.
    destruct l as [f role name | f t | cb]; cbv beta iota delta [scripted_call scripted] in S; try discriminate S.
    + left. apply andb_true_iff in S. destruct S as [S1 S2].
      apply String.eqb_eq in S1. apply String.eqb_eq in S2. subst. now exists f.
    + right. exists f, t. split; [reflexivity|].
      apply existsb_exists in S. destruct S as (x & Hx & E).
      apply String.eqb_eq in E. now subst.
Qed.

(** *** The token that [solve_recaptcha] returns *)

(** X13.  [solve_recaptcha] does not reset the token: the value it
    returns is the token the solver had when it was called, carried
    through the responses handed to the listener during the run.  So a
    run in which no such response matches returns the token of before
    (that of an earlier solve, if there was one), and [None] is returned
    only by a solver that had no token and met no matching response. *)
Theorem solve_recaptcha_returns_carried_token (fuel : nat) (retries : option Z)
  (st st' : runtime W) (evs : list event) (v : option string) :
  solve_recaptcha perform fuel retries st = (evs, Return v, st') ->
  v = token (fold_left _extract_token (dispatched evs) (self st)) /\
  ((forall resp, In resp (dispatched evs) -> ~ matching resp) ->
   v = token (self st)) /\
  (v = None ->
   token (self st) = None /\
   forall resp, In resp (dispatched evs) -> ~ matching resp).
Proof.
  intros H.
  assert (E : v = token (fold_left _extract_token (dispatched evs) (self st))).
  { rewrite <- (replays_solve_recaptcha W perform fuel retries _ _ _ _ H).
    exact (solve_recaptcha_returns_token_field W perform fuel retries
             _ _ _ _ _ H eq_refl). }
  split; [exact E|]. split.
  - intros N. rewrite E. now rewrite extract_token_fold_not_matching.
  - intros ->. now apply extract_token_fold_none.
Qed.

End Further.

(** *** Runs on the scripted browser *)

(** The scripted browser with the network down: [httpx.get] raises. *)
Definition offline (A : Type) (c : call A) (w : Demo.script) :
  outcome A * list Response * Demo.script :=
  match c in call A return outcome A * list Response * Demo.script with
  | httpx_get _ => (Raised "httpx.ConnectError", [], w)
  | c' => Demo.perform _ c' w
  end.

Lemma solve_recaptcha_passes_exceptions_witness :
  let run := solve_recaptcha offline 5 None (Demo.start [false; false; true] []) in
  snd (fst run) = Raise (External "httpx.ConnectError") /\
  only_last failed (fst (fst run)) /\
  (forall name,
      snd (fst run) = Raise (External name) <->
      last_raised (fst (fst run)) = Some name).
Proof.
  intros run.
  assert (E : solve_recaptcha offline 5 None (Demo.start [false; false; true] [])
              = (fst (fst run), snd (fst run), snd run))
    by (vm_compute; reflexivity).
  split; [vm_compute; reflexivity|].
  apply (solve_recaptcha_passes_exceptions Demo.script offline 5 None
           (Demo.start [false; false; true] []) (snd run)
           (fst (fst run)) (snd (fst run)) E).
Defined.

Lemma solve_recaptcha_without_retries_witness :
  let run := solve_recaptcha Demo.perform 5 (Some (-1)%Z)
               (Demo.start [false; false] []) in
  snd (fst run) = Raise RecaptchaSolveError /\
  count attempt_start (fst (fst run)) = 0 /\
  count new_challenge (fst (fst run)) = 0 /\
  length (fst (fst run)) <= 8 /\
  snd (fst run) <> Diverge /\ snd (fst run) <> Raise RecaptchaRateLimitError.
Proof.
  intros run.
  assert (E : solve_recaptcha Demo.perform 5 (Some (-1)%Z)
                (Demo.start [false; false] [])
              = (fst (fst run), snd (fst run), snd run))
    by (vm_compute; reflexivity).
  split; [vm_compute; reflexivity|].
  apply (solve_recaptcha_without_retries Demo.script Demo.perform 5
           (Some (-1)%Z) (Demo.start [false; false] []) (snd run)
           (fst (fst run)) (snd (fst run)) E).
  simpl. lia.
Defined.

Lemma solve_recaptcha_checked_at_once_witness :
  let run := solve_recaptcha Demo.perform 5 None
               (Demo.start [true] [Demo.userverify]) in
  snd (fst run) = Return (token (self (snd run))) /\
  length (fst (fst run)) = 7 /\
  ends_with checked (fst (fst run)) = true /\
  count attempt_start (fst (fst run)) = 0.
Proof.
  intros run.
  assert (E : solve_recaptcha Demo.perform 5 None
                (Demo.start [true] [Demo.userverify])
              = (fst (fst run), snd (fst run), snd run))
    by (vm_compute; reflexivity).
  apply (solve_recaptcha_checked_at_once Demo.script Demo.perform 5 None
           (Demo.start [true] [Demo.userverify]) (snd run)
           (fst (fst run)) (snd (fst run)) E).
  vm_compute; reflexivity.
Defined.

Lemma helpers_rate_limit_witness :
  let run := _get_audio_url Demo.perform 5 (frame_ref 1)
               (Demo.start [false; false; true] []) in
  snd (fst run) = Raise RecaptchaRateLimitError /\
  only_last rate_limited (fst (fst run)) /\
  (snd (fst run) = Raise RecaptchaRateLimitError <->
   ends_with rate_limited (fst (fst run)) = true) /\
  snd (fst run) <> Raise RecaptchaSolveError /\
  ends_with unchecked (fst (fst run)) = false.
Proof.
  intros run.
  assert (E : _get_audio_url Demo.perform 5 (frame_ref 1)
                (Demo.start [false; false; true] [])
              = (fst (fst run), snd (fst run), snd run))
    by (vm_compute; reflexivity).
  split; [vm_compute; reflexivity|].
  apply (proj1 (helpers_rate_limit Demo.script Demo.perform 5 (frame_ref 1)
                  (checkbox_ref 0) (PyStr "seven two"))
           (Demo.start [false; false; true] []) (fst (fst run))
           (snd (fst run)) (snd run) E).
Defined.

Lemma convert_audio_to_text_answers_witness :
  let run := _convert_audio_to_text Demo.perform (Some Demo.audio_href)
               (Demo.start [] []) in
  snd (fst run) = Return (PyStr "seven two").
Proof.
  intros run.
  assert (E : _convert_audio_to_text Demo.perform (Some Demo.audio_href)
                (Demo.start [] [])
              = (fst (fst run), snd (fst run), snd run))
    by (vm_compute; reflexivity).
  assert (F : exists e, final (fst (fst run)) = Some e /\
                        recognized e = Some Demo.heard).
  { exists (Ev (recognize_google [] true) (Returned Demo.heard) []).
    split; vm_compute; reflexivity. }
  apply (proj1 (convert_audio_to_text_answers Demo.script Demo.perform
                  (Some Demo.audio_href) (Demo.start [] []) (snd run)
                  (fst (fst run)) (snd (fst run)) Demo.heard E F)).
Defined.

Lemma convert_audio_to_text_static_witness :
  let st := Demo.start [] [Demo.userverify] in
  let run := _convert_audio_to_text Demo.perform (Some Demo.audio_href) st in
  self (snd run) = self st /\ listeners (snd run) = listeners st /\
  forallb library_call (fst (fst run)) = true /\
  dispatched (fst (fst run)) = [].
Proof.
  intros st run.
  assert (E : _convert_audio_to_text Demo.perform (Some Demo.audio_href) st
              = (fst (fst run), snd (fst run), snd run))
    by (vm_compute; reflexivity).
  apply (convert_audio_to_text_static Demo.script Demo.perform
           (Some Demo.audio_href) st (snd run) (fst (fst run))
           (snd (fst run)) E).
Defined.

(** The scripted browser with a download link that has no [href]:
    [get_attribute] returns [None]. *)
Definition no_href (A : Type) (c : call A) (w : Demo.script) :
  outcome A * list Response * Demo.script :=
  match c in call A return outcome A * list Response * Demo.script with
  | get_attribute _ _ => (Returned None, [], w)
  | c' => Demo.perform _ c' w
  end.

Lemma get_audio_url_polls_witness :
  let run := _get_audio_url no_href 5 (frame_ref 1)
               (Demo.start [true; false; false; false; false; true] []) in
  snd (fst run) = Return None /\
  count waited_100 (fst (fst run)) = 2 /\
  count play_asked (fst (fst run)) = 3.
Proof.
  intros run.
  assert (E : _get_audio_url no_href 5 (frame_ref 1)
                (Demo.start [true; false; false; false; false; true] [])
              = (fst (fst run), snd (fst run), snd run))
    by (vm_compute; reflexivity).
  pose proof (get_audio_url_polls Demo.script no_href 5 (frame_ref 1)
                (Demo.start [true; false; false; false; false; true] [])
                (snd run) (fst (fst run)) (snd (fst run)) E) as P.
  destruct P as (P1 & _).
  split; [apply P1; vm_compute; reflexivity|].
  split; vm_compute; reflexivity.
Defined.

(** With no [href] on the link, [solve_recaptcha] hands [None] on to
    [httpx.get]. *)
Example solve_recaptcha_missing_href :
  let '(evs, _, _) :=
    solve_recaptcha no_href 5 None (Demo.start [false; false; true] []) in
  existsb (fun e => match e with
                    | Ev (httpx_get None) _ _ => true
                    | _ => false
                    end) evs = true.
Proof. vm_compute. reflexivity. Qed.

Lemma submit_audio_text_polls_witness :
  let run := _submit_audio_text Demo.perform 5 (frame_ref 1) (checkbox_ref 0)
               (PyStr "seven two")
               (Demo.start [false; false; false; false; true] []) in
  count is_check (fst (fst run)) = count more_absent (fst (fst run)) /\
  count is_click (fst (fst run)) <= 1.
Proof.
  intros run.
  assert (E : _submit_audio_text Demo.perform 5 (frame_ref 1) (checkbox_ref 0)
                (PyStr "seven two")
                (Demo.start [false; false; false; false; true] [])
              = (fst (fst run), snd (fst run), snd run))
    by (vm_compute; reflexivity).
  pose proof (submit_audio_text_polls Demo.script Demo.perform 5 (frame_ref 1)
                (checkbox_ref 0) (PyStr "seven two")
                (Demo.start [false; false; false; false; true] [])
                (snd run) (fst (fst run)) (snd (fst run)) E) as P.
  destruct P as (_ & _ & P3 & P4 & _).
  split; [exact P4 | exact P3].
Defined.

Lemma solve_recaptcha_by_the_script_witness :
  let run := solve_recaptcha Demo.perform 5 None (Demo.start never_solved []) in
  forallb scripted_call (fst (fst run)) = true.
Proof.
  intros run.
  assert (E : solve_recaptcha Demo.perform 5 None (Demo.start never_solved [])
              = (fst (fst run), snd (fst run), snd run))
    by (vm_compute; reflexivity).
  apply (proj1 (solve_recaptcha_by_the_script Demo.script Demo.perform 5 None
                  (Demo.start never_solved []) (snd run) (fst (fst run))
                  (snd (fst run)) E)).
Defined.

(** A solver that holds the token of an earlier solve, on a page that
    receives a response that is not a userverify response. *)
Definition solved_before : runtime Demo.script :=
  mkRuntime (set_token Demo.solver (Some "old")) []
    (Demo.mkScript [true] [reload] Demo.heard).

Lemma solve_recaptcha_returns_carried_token_witness :
  let run := solve_recaptcha Demo.perform 5 None solved_before in
  dispatched (fst (fst run)) = [reload] /\
  Some "old" =
  token (fold_left _extract_token (dispatched (fst (fst run)))
           (self solved_before)).
Proof.
  intros run.
  assert (E : solve_recaptcha Demo.perform 5 None solved_before
              = (fst (fst run), Return (Some "old"), snd run))
    by (vm_compute; reflexivity).
  split; [vm_compute; reflexivity|].
  apply (proj1 (solve_recaptcha_returns_carried_token Demo.script Demo.perform
                  5 None solved_before (snd run) (fst (fst run))
                  (Some "old") E)).
Defined.

(** *** Facts on the table of listeners *)

Lemma listener_eqb_eq (a b : string * handler) :
  listener_eqb a b = true <-> a = b.
Proof.
  destruct a as [ea ha], b as [eb hb]. unfold listener_eqb; simpl.
  rewrite andb_true_iff, String.eqb_eq. split.
  - intros [-> H]. f_equal.
    destruct ha, hb; simpl in H; try discriminate; [reflexivity|].
    apply Nat.eqb_eq in H. now subst.
  - intros E; inversion E; subst. split; [reflexivity|].
    destruct hb; simpl; [reflexivity | apply Nat.eqb_refl].
Qed.

Lemma registered_In (l : string * handler) (ls : list (string * handler)) :
  registered l ls = true <-> In l ls.
Proof.
  unfold registered. rewrite existsb_exists. split.
  - intros (x & Hx & E). apply listener_eqb_eq in E. now subst.
  - intros H. exists l. split; [exact H | now apply listener_eqb_eq].
Qed.

Lemma filter_other_not_registered (l : string * handler)
  (ls : list (string * handler)) :
  registered l ls = false ->
  filter (fun x => negb (listener_eqb l x)) ls = ls.
Proof.
  unfold registered. induction ls as [|x ls IH]; [reflexivity|]. simpl.
  intros H. apply orb_false_iff in H. destruct H as [H1 H2].
  rewrite H1. simpl. now rewrite IH.
Qed.

Lemma filter_with_listener (l : string * handler) (ls : list (string * handler)) :
  registered l ls = false ->
  filter (fun x => negb (listener_eqb l x)) (with_listener l ls) = ls.
Proof.
  intros H. unfold with_listener. rewrite H, filter_app. simpl.
  assert (E : listener_eqb l l = true) by now apply listener_eqb_eq.
  rewrite E. simpl. rewrite app_nil_r. now apply filter_other_not_registered.
Qed.

Lemma close_listeners (W : Type) (st : runtime W) :
  close st =
  ([], Return tt,
   mkRuntime (self st)
     (filter (fun x => negb (listener_eqb own x)) (listeners st))
     (browser st)).
Proof.
  unfold close, try_except, remove_listener. fold own.
  destruct (registered own (listeners st)) eqn:E; [reflexivity|]. simpl.
  rewrite filter_other_not_registered by exact E. now destruct st.
Qed.

(** X3.  [close] takes the solver's own listener off the page and
    nothing else: the other listeners of the page (other callables on
    ["response"], and listeners of other events) stay, in their order,
    and the solver and the browser are as before. *)
Theorem close_keeps_other_listeners (W : Type) (st : runtime W) :
  let st' := snd (close st) in
  listeners st' = filter (fun x => negb (listener_eqb own x)) (listeners st) /\
  (forall l, l <> own -> (In l (listeners st') <-> In l (listeners st))) /\
  ~ In own (listeners st') /\
  self st' = self st /\ browser st' = browser st.
Proof.
  rewrite close_listeners. simpl. split; [reflexivity|]. split.
  - intros l Hl. rewrite filter_In. split; [tauto|]. intros H. split; [exact H|].
    apply negb_true_iff. destruct (listener_eqb own l) eqn:E; [|reflexivity].
    apply listener_eqb_eq in E. congruence.
  - split; [|now split]. rewrite filter_In. intros [_ H].
    assert (E : listener_eqb own own = true) by now apply listener_eqb_eq.
    rewrite E in H. discriminate.
Qed.

(** X4.  Whatever its outcome (a token, an exception, a loop cut off),
    [solve_recaptcha] leaves its listener on the page; it adds it at the
    end of the table when it was not there and leaves the table as it is
    when it was, so the listener is never there twice and no other
    listener is touched. *)
Theorem solve_recaptcha_leaves_listener (W : Type)
  (perform : forall A : Type, call A -> W -> outcome A * list Response * W)
  (fuel : nat) (retries : option Z) (st st' : runtime W) (evs : list event)
  (r : result (option string)) :
  solve_recaptcha perform fuel retries st = (evs, r, st') ->
  In own (listeners st') /\
  (In own (listeners st) -> listeners st' = listeners st) /\
  (~ In own (listeners st) -> listeners st' = listeners st ++ [own]).
Proof.
  intros H. rewrite (solve_recaptcha_listeners W perform _ _ _ _ _ _ H).
  unfold with_listener. destruct (registered own (listeners st)) eqn:E.
  - apply registered_In in E. repeat split; tauto.
  - assert (N : ~ In own (listeners st)).
    { intros HI. apply registered_In in HI. congruence. }
    split; [apply in_or_app; right; now left|]. split; tauto.
Qed.

Lemma solve_recaptcha_leaves_listener_witness :
  let run := solve_recaptcha Demo.perform 5 None
               (Demo.start [false; true; false; true] []) in
  snd (fst run) = Raise RecaptchaRateLimitError /\ In own (listeners (snd run)).
Proof.
  intros run.
  assert (E : solve_recaptcha Demo.perform 5 None
                (Demo.start [false; true; false; true] [])
              = (fst (fst run), snd (fst run), snd run))
    by (vm_compute; reflexivity).
  split; [vm_compute; reflexivity|].
  apply (solve_recaptcha_leaves_listener Demo.script Demo.perform 5 None
           (Demo.start [false; true; false; true] []) (snd run)
           (fst (fst run)) (snd (fst run)) E).
Defined.

(** X5.  [solve_recaptcha] and then [close] give the page its listeners
    back: when the solver's listener was not on the page before, the
    table after [close] is the table before [solve_recaptcha], whatever
    [solve_recaptcha] did. *)
Theorem solve_recaptcha_then_close_restores (W : Type)
  (perform : forall A : Type, call A -> W -> outcome A * list Response * W)
  (fuel : nat) (retries : option Z) (st st' : runtime W) (evs : list event)
  (r : result (option string)) :
  solve_recaptcha perform fuel retries st = (evs, r, st') ->
  ~ In own (listeners st) ->
  listeners (snd (close st')) = listeners st /\
  self (snd (close st')) = self st' /\
  fst (close st') = ([], Return tt).
Proof.
  intros H N. rewrite close_listeners. simpl.
  rewrite (solve_recaptcha_listeners W perform _ _ _ _ _ _ H).
  split; [|now split]. apply filter_with_listener.
  destruct (registered own (listeners st)) eqn:E; [|reflexivity].
  apply registered_In in E. contradiction.
Qed.

Lemma solve_recaptcha_then_close_restores_witness :
  let run := solve_recaptcha Demo.perform 1 None (Demo.start never_solved []) in
  listeners (snd (close (snd run))) = [] /\
  self (snd (close (snd run))) = self (snd run) /\
  fst (close (snd run)) = ([], Return tt).
Proof.
  intros run.
  assert (E : solve_recaptcha Demo.perform 1 None (Demo.start never_solved [])
              = (fst (fst run), snd (fst run), snd run))
    by (vm_compute; reflexivity).
  apply (solve_recaptcha_then_close_restores Demo.script Demo.perform 1 None
           (Demo.start never_solved []) (snd run) (fst (fst run))
           (snd (fst run)) E).
  intros [].
Defined.

(* ------------------------------------------------------------------ *)
(** ** The retry loop, call by call *)




















Section Retry.

Variable W : Type.
Variable perform : forall A : Type, call A -> W -> outcome A * list Response * W.




















End Retry.

(* ------------------------------------------------------------------ *)
(** ** The retry loop: claim C2 *)



